(** * Network probing exercises: health checker, port scanner, ICMP ping

    A shallow embedding of the Go programs
    [exercises/05-health-checker/main.go] (the HTTP health checker and the
    concurrent port scanner that follows it in the same file) and
    [exercises/04-icmp-ping/main.go].

    Conventions.
    - A Go [int], [int64] or [time.Duration] is a [Z]; a [time.Duration]
      counts nanoseconds.  Where the source does arithmetic on such a value
      the 64-bit wrap-around is written out ([wrap64]).
    - A Go [string] is a [string] (a sequence of bytes).
    - [map[string]*HealthStatus] is a [gmap string HealthStatus]: the map is
      only ever assigned freshly allocated structs that are never written
      again, so the pointer is modelled by the value it points to.
    - The network, the clock, the file system and [encoding/json] are the
      environment: what they answer is an argument of the function that
      asks. *)

From Stdlib Require Import ZArith List Lia Permutation.
From stdpp Require Import base gmap strings list pretty sorting.

Local Open Scope Z_scope.

(** ** Machine integers and durations *)

Definition min_int64 : Z := - 2 ^ 63.
Definition max_int64 : Z := 2 ^ 63 - 1.

(** The value a 64-bit signed register holds after an operation whose
    mathematical result is [z]. *)
Definition wrap64 (z : Z) : Z := (z + 2 ^ 63) mod 2 ^ 64 - 2 ^ 63.

Definition in_int64 (z : Z) : Prop := min_int64 <= z <= max_int64.

Definition Nanosecond : Z := 1.
Definition Microsecond : Z := 1000 * Nanosecond.
Definition Millisecond : Z := 1000 * Microsecond.
Definition Second : Z := 1000 * Millisecond.

(** [fmt.Sprintf("%d", n)] for a Go [int]. *)
Definition fmt_d (n : Z) : string := pretty n.

(** Results of fallible calls: Go's [(value, error)] pair with the error
    rendered by [err.Error()]. *)
Inductive result (A : Type) : Type :=
| Ok (a : A)
| Err (e : string).
Arguments Ok {A} a.
Arguments Err {A} e.

Definition is_err {A} (r : result A) : bool :=
  match r with Ok _ => false | Err _ => true end.

(** ** The HTTP health checker *)

Module HealthChecker.

(** [type Endpoint struct] *)
Record Endpoint : Type := mkEndpoint {
  Name : string;
  URL : string;
  Interval : Z;
  Timeout : Z;
  ExpectedStatus : Z
}.

(** [type HealthStatus struct]; [LastCheck] is the instant read from
    [time.Now()], in nanoseconds. *)
Record HealthStatus : Type := mkHealthStatus {
  hsEndpoint : Endpoint;
  Healthy : bool;
  Latency : Z;
  LastCheck : Z;
  Error : string
}.

(** [var defaultEndpoints] *)
Definition defaultEndpoints : list Endpoint :=
  [ mkEndpoint "Google" "https://www.google.com" (5 * Second) (3 * Second) 200;
    mkEndpoint "Cloudflare" "https://www.cloudflare.com" (5 * Second) (3 * Second) 200;
    mkEndpoint "GitHub" "https://api.github.com" (5 * Second) (3 * Second) 200;
    mkEndpoint "Example (should work)" "https://example.com" (5 * Second) (3 * Second) 200;
    mkEndpoint "Bad Endpoint (should fail)" "https://this-does-not-exist-12345.com"
      (10 * Second) (2 * Second) 200 ].

(** The fields of [http.Client] and [http.Transport] that [createClient]
    sets. [DialerTimeout] is [Some] when the transport dials through the
    interface-bound [net.Dialer]. *)
Record Client : Type := mkClient {
  MaxIdleConns : Z;
  MaxIdleConnsPerHost : Z;
  IdleConnTimeout : Z;
  DialerTimeout : option Z;
  ClientTimeout : Z
}.

(** [type HealthChecker struct], without the lock [mu]. *)
Record HealthChecker : Type := mkHealthChecker {
  endpoints : list Endpoint;
  client : Client;
  statuses : gmap string HealthStatus
}.

(** [func (hc *HealthChecker) updateStatus]; [now] is what [time.Now()]
    returns inside the critical section. *)
Definition updateStatus (ep : Endpoint) (healthy : bool) (latency : Z)
    (errMsg : string) (now : Z) (hc : HealthChecker) : HealthChecker :=
  mkHealthChecker (endpoints hc) (client hc)
    (<[Name ep := mkHealthStatus ep healthy latency now errMsg]> (statuses hc)).

(** What the network answers to one probe attempt of [checkEndpoint]:
    - [NewRequestErr msg]: [http.NewRequestWithContext] returned an error;
    - [DoErr since msg]: [hc.client.Do] returned an error (timeout, refused
      connection, DNS failure, cancellation, ...), [since] being the value
      of [time.Since(start)];
    - [DoResp since code]: a response arrived with status [code]. *)
Inductive attempt : Type :=
| NewRequestErr (msg : string)
| DoErr (since : Z) (msg : string)
| DoResp (since : Z) (code : Z).

(** [func (hc *HealthChecker) checkEndpoint] *)
Definition checkEndpoint (ep : Endpoint) (a : attempt) (now : Z)
    (hc : HealthChecker) : HealthChecker :=
  match a with
  | NewRequestErr msg => updateStatus ep false 0 msg now hc
  | DoErr latency msg => updateStatus ep false latency msg now hc
  | DoResp latency code =>
      let healthy := bool_decide (code = ExpectedStatus ep) in
      let errMsg :=
        if negb healthy
        then "status " +:+ fmt_d code +:+ " (expected " +:+ fmt_d (ExpectedStatus ep) +:+ ")"
        else "" in
      updateStatus ep healthy latency errMsg now hc
  end.

(** One call of [fmt.Println] or [fmt.Printf]: the format string as it is
    written in the source and the arguments it is applied to. *)
Inductive output : Type :=
| Println (s : string)
| Printf (format : string) (args : list string).

(** [d.Microseconds()]: integer division truncating towards zero. *)
Definition Microseconds (d : Z) : Z := d `quot` 1000.

Section Reporter.

(** [fmt.Sprintf("%.0fms", float64(us)/1000)] as a function of [us]; the
    floating-point rendering is left to the environment. *)
Variable fmt_ms : Z -> string.

(** The body of the loop of [printStatus] for one endpoint. *)
Definition printEndpoint (statuses : gmap string HealthStatus)
    (ep : Endpoint) : output :=
  match statuses !! Name ep with
  | None => Printf "   ⏳ %-25s checking...\n" [Name ep]
  | Some status =>
      let icon := if negb (Healthy status) then "❌" else "✅" in
      let latencyStr := fmt_ms (Microseconds (Latency status)) in
      if bool_decide (Error status <> "")
      then Printf "   %s %-25s %s (error: %s)\n"
             [icon; Name ep; latencyStr; Error status]
      else Printf "   %s %-25s %s\n" [icon; Name ep; latencyStr]
  end.

(** [func (hc *HealthChecker) printStatus]: what it writes, in order. *)
Definition printStatus (hc : HealthChecker) : list output :=
  Println "\n📊 Health Status:"
    :: map (printEndpoint (statuses hc)) (endpoints hc).

End Reporter.

(** The three things the reporter can show for a target. *)
Inductive shown : Type := ShownPending | ShownHealthy | ShownFailed.

(** Reading a line of [printStatus] back: which state it displays and for
  which name. [None] for anything that is not a target line. *)
Definition read_line (o : output) : option (shown * string) :=
  match o with
  | Println _ => None
  | Printf format args =>
      if String.eqb format "   ⏳ %-25s checking...\n"
      then match args with
           | [name] => Some (ShownPending, name)
           | _ => None
           end
      else match args with
           | icon :: name :: _ =>
               if String.eqb icon "✅" then Some (ShownHealthy, name)
               else if String.eqb icon "❌" then Some (ShownFailed, name)
               else None
           | _ => None
           end
  end.

Section Client.

(** [net.InterfaceByName] and [iface.Addrs()]; an address is an
[*net.IPNet] carrying an IP, or something else. *)
Context {Interface IP : Type}.
Variable InterfaceByName : string -> result Interface.
Variable Addrs : Interface -> result (list (option IP)).
(** [ip.To4() != nil] *)
Variable isIPv4 : IP -> bool.

(** [func getInterfaceAddr]: the first IPv4 network address of the
interface, [None] for [nil]. *)
Definition getInterfaceAddr (name : string) : option IP :=
match InterfaceByName name with
| Err _ => None
| Ok iface =>
  match Addrs iface with
  | Err _ => None
  | Ok addrs =>
      head (omap (fun addr =>
                    match addr with
                    | Some ip => if isIPv4 ip then Some ip else None
                    | None => None
                    end) addrs)
  end
end.

(** [func createClient] *)
Definition createClient (interfaceName : string) : Client :=
let dialer :=
if bool_decide (interfaceName <> "")
then match getInterfaceAddr interfaceName with
     | Some _ => Some (5 * Second)
     | None => None
     end
else None in
mkClient 100 10 (90 * Second) dialer (10 * Second).

End Client.

Definition set_Interval (v : Z) (e : Endpoint) : Endpoint :=
  mkEndpoint (Name e) (URL e) v (Timeout e) (ExpectedStatus e).
Definition set_Timeout (v : Z) (e : Endpoint) : Endpoint :=
  mkEndpoint (Name e) (URL e) (Interval e) v (ExpectedStatus e).
Definition set_ExpectedStatus (v : Z) (e : Endpoint) : Endpoint :=
  mkEndpoint (Name e) (URL e) (Interval e) (Timeout e) v.

(** [if endpoints[i].F == 0 { endpoints[i].F = v }] for a field [F] with
getter [get] and setter [set]. *)
Definition defaultField (get : Endpoint -> Z) (set : Z -> Endpoint -> Endpoint)
(v : Z) (i : nat) (endpoints : list Endpoint) : list Endpoint :=
  match endpoints !! i with
  | Some e => if bool_decide (get e = 0) then <[i := set v e]> endpoints else endpoints
  | None => endpoints
  end.

(** The body of the "Set defaults" loop of [loadEndpoints] at index [i]. *)
Definition setDefaultsAt (endpoints : list Endpoint) (i : nat) : list Endpoint :=
  let endpoints := defaultField Interval set_Interval (5 * Second) i endpoints in
  let endpoints := defaultField Timeout set_Timeout (3 * Second) i endpoints in
  defaultField ExpectedStatus set_ExpectedStatus 200 i endpoints.

Section Config.

(** [os.ReadFile] and [json.Unmarshal(data, &endpoints)]. *)
Variable ReadFile : string -> result (list Byte.byte).
Variable Unmarshal : list Byte.byte -> result (list Endpoint).

(** [func loadEndpoints] *)
Definition loadEndpoints (filename : string) : result (list Endpoint) :=
  match ReadFile filename with
  | Err e => Err e
  | Ok data =>
match Unmarshal data with
| Err e => Err e
| Ok endpoints =>
    Ok (foldl setDefaultsAt endpoints (seq 0 (length endpoints)))
end
  end.

(** How [main] starts: it dies in [log.Fatalf] before anything runs, or
it builds the checker and starts one [monitorEndpoint] goroutine for
each element of [monitored], in that order. *)
Inductive startup : Type :=
| Fatal (msg : string)
| Started (hc : HealthChecker) (monitored : list Endpoint).

Context {Interface IP : Type}.
Variable InterfaceByName : string -> result Interface.
Variable Addrs : Interface -> result (list (option IP)).
Variable isIPv4 : IP -> bool.

(** [func main] up to [wg.Wait()]; the two flags are its arguments. *)
Definition main (configFile interfaceName : string) : startup :=
  let start endpoints :=
let client := createClient InterfaceByName Addrs isIPv4 interfaceName in
Started (mkHealthChecker endpoints client ∅) endpoints in
  if bool_decide (configFile <> "")
  then match loadEndpoints configFile with
 | Err err => Fatal ("Failed to load config: " +:+ err)
 | Ok loaded => start loaded
 end
  else start defaultEndpoints.

End Config.

(** What [select] picks in one iteration of the loop of [monitorEndpoint]:
    the context is done, or the ticker fired, in which case the probe meets
    the network's answer [a] and the store is written at instant [now]. *)
Inductive selected : Type :=
| CtxDone
| Tick (a : attempt) (now : Z).

(** Where a scheduler is after a finite run: it returned, it is blocked in
    [select] waiting for the next event, or [time.NewTicker] panicked
    (it does for a non-positive interval). *)
Inductive scheduler : Type :=
| Stopped (hc : HealthChecker)
| Waiting (hc : HealthChecker)
| Panicked.

(** The [for { select { ... } }] loop along the events [evs]. *)
Fixpoint monitorLoop (ep : Endpoint) (evs : list selected) (hc : HealthChecker)
    : scheduler :=
  match evs with
  | [] => Waiting hc
  | CtxDone :: _ => Stopped hc
  | Tick a now :: evs => monitorLoop ep evs (checkEndpoint ep a now hc)
  end.

(** [func (hc *HealthChecker) monitorEndpoint]: [first] and [now] are the
    answer to, and the instant of, the initial check. *)
Definition monitorEndpoint (ep : Endpoint) (first : attempt) (now : Z)
    (evs : list selected) (hc : HealthChecker) : scheduler :=
  if Interval ep <=? 0 then Panicked
  else monitorLoop ep evs (checkEndpoint ep first now hc).

(** What the "Set defaults" loop makes of one endpoint. *)
Definition withDefaults (e : Endpoint) : Endpoint :=
  mkEndpoint (Name e) (URL e)
    (if bool_decide (Interval e = 0) then 5 * Second else Interval e)
    (if bool_decide (Timeout e = 0) then 3 * Second else Timeout e)
    (if bool_decide (ExpectedStatus e = 0) then 200 else ExpectedStatus e).

(** A history of completed probes, oldest first, and the checker after it. *)
Definition probe : Type := Endpoint * attempt * Z.

Definition after (hist : list probe) (hc : HealthChecker) : HealthChecker :=
  foldl (fun hc p => checkEndpoint p.1.1 p.1.2 p.2 hc) hc hist.

Definition probed (hist : list probe) : list string :=
  map (fun p => Name p.1.1) hist.

(** The validity the specification asks of a target list: positive
    interval and timeout, an address, and no identity used twice (an
    [Endpoint] has no probe kind to check). *)
(** A probe attempt that fails: a transport error, or a response whose
    status is not the expected one. *)
Definition failure (ep : Endpoint) (a : attempt) : bool :=
  match a with
  | NewRequestErr _ | DoErr _ _ => true
  | DoResp _ code => negb (bool_decide (code = ExpectedStatus ep))
  end.

Definition valid_target (e : Endpoint) : Prop :=
  0 < Interval e /\ 0 < Timeout e /\ URL e <> "".

Definition valid_targets (l : list Endpoint) : Prop :=
  Forall valid_target l /\ NoDup (map Name l).

(** The most recent probe of a history made under the name [n]. *)
Definition latest (n : string) (hist : list probe) : option probe :=
  last (filter (fun p : probe => Name p.1.1 = n) hist).

(** The probes a scheduler makes along the events [evs]: one per tick,
    until the context is done. *)
Fixpoint ticks (ep : Endpoint) (evs : list selected) : list probe :=
  match evs with
  | [] => []
  | CtxDone :: _ => []
  | Tick a now :: evs => (ep, a, now) :: ticks ep evs
  end.

Definition cancelled (evs : list selected) : bool :=
  existsb (fun ev => match ev with CtxDone => true | Tick _ _ => false end) evs.

End HealthChecker.

(** ** The concurrent port scanner *)

Module PortScanner.

(** [type ScanResult struct] *)
Record ScanResult : Type := mkScanResult {
  Port : Z;
  Open : bool;
  Banner : string
}.

(** [net.DialTimeout(network, address, timeout)] as the network answers it
    at the moment of one call. *)
Definition dialer : Type := string -> string -> Z -> result unit.

(** [func scanPort] *)
Definition scanPort (host : string) (port : Z) (timeout : Z)
    (DialTimeout : dialer) : ScanResult :=
  let address := host +:+ ":" +:+ fmt_d port in
  match DialTimeout "tcp" address timeout with
  | Err _ => mkScanResult port false ""
  | Ok _ => mkScanResult port true ""
  end.

(** Capacity of the two channels: [make(chan int, 100)] and
    [make(chan ScanResult, 100)]. *)
Definition capacity : nat := 100.

(** Where a worker goroutine stands in
    [for port := range ports { result := scanPort(...); if result.Open { results <- result } }]. *)
Inductive worker : Type :=
| Receiving                      (* at [range ports], waiting for a port *)
| Dialing (port : Z)             (* inside [scanPort] *)
| Sending (result : ScanResult)  (* at [results <- result] *)
| Exited.                        (* loop over, [wg.Done()] has run *)

(** The goroutines of one call of [scanPorts] and the two channels.
    [attempts] is a ghost log of the dials made: worker, port, answer. *)
Record state : Type := mkState {
  port : Z;                      (* the producer's loop variable *)
  ports : list Z;                (* buffer of the channel [ports] *)
  ports_closed : bool;           (* [close(ports)] has run *)
  pool : list worker;
  results : list ScanResult;     (* buffer of the channel [results] *)
  results_closed : bool;         (* [close(results)] has run *)
  openPorts : list ScanResult;   (* the collector's slice *)
  returned : bool;               (* [scanPorts] has returned [openPorts] *)
  attempts : list (nat * Z * bool)
}.

(** One atomic step of one goroutine. *)
Inductive action : Type :=
| Produce                        (* producer: [ports <- port; port++] *)
| ClosePorts                     (* producer: loop exit, [close(ports)] *)
| Recv (i : nat)                 (* worker [i]: receives a port *)
| Dial (i : nat) (net : dialer)  (* worker [i]: [scanPort] returns *)
| Publish (i : nat)              (* worker [i]: [results <- result] *)
| Exit (i : nat)                 (* worker [i]: channel closed and drained *)
| CloseResults                   (* [wg.Wait()] returns, [close(results)] *)
| Collect                        (* collector: receives a result, appends *)
| Return.                        (* collector: [return openPorts] *)

Definition all_exited (pool : list worker) : bool :=
  forallb (fun w => match w with Exited => true | _ => false end) pool.

(** The integers from [a] up to, not including, [b]. *)
Definition upto (a b : Z) : list Z :=
  map (fun k => a + Z.of_nat k) (seq 0 (Z.to_nat (b - a))).

Section Scan.

(** The arguments of [scanPorts]. *)
Variables (host : string) (startPort endPort : Z) (timeout : Z) (workers : Z).

(** The state once [scanPorts] has started its goroutines:
    [for i := 0; i < workers; i++] starts [workers] workers (none when
    [workers <= 0]), the producer is at [port := startPort]. *)
Definition init : state :=
  mkState startPort [] false (replicate (Z.to_nat workers) Receiving)
    [] false [] false [].

Definition set_worker (i : nat) (w : worker) (s : state) : state :=
  mkState (port s) (ports s) (ports_closed s) (<[i := w]> (pool s))
    (results s) (results_closed s) (openPorts s) (returned s) (attempts s).

(** [step a s] is the state after action [a], [None] when the goroutine
    is not at that point or is blocked there. *)
Definition step (a : action) (s : state) : option state :=
  match a with
  | Produce =>
if negb (ports_closed s) && (port s <=? endPort)
 && (length (ports s) <? capacity)%nat
then Some (mkState (wrap64 (port s + 1)) (ports s ++ [port s])
           (ports_closed s) (pool s) (results s) (results_closed s)
           (openPorts s) (returned s) (attempts s))
else None
  | ClosePorts =>
if negb (ports_closed s) && negb (port s <=? endPort)
then Some (mkState (port s) (ports s) true (pool s) (results s)
           (results_closed s) (openPorts s) (returned s) (attempts s))
else None
  | Recv i =>
match pool s !! i, ports s with
| Some Receiving, p :: rest =>
  Some (mkState (port s) rest (ports_closed s)
          (<[i := Dialing p]> (pool s)) (results s)
          (results_closed s) (openPorts s) (returned s) (attempts s))
| _, _ => None
end
  | Dial i net =>
match pool s !! i with
| Some (Dialing p) =>
  let result := scanPort host p timeout net in
  Some (mkState (port s) (ports s) (ports_closed s)
          (<[i := if Open result then Sending result else Receiving]> (pool s))
          (results s) (results_closed s) (openPorts s) (returned s)
          (attempts s ++ [(i, p, Open result)]))
| _ => None
end
  | Publish i =>
match pool s !! i with
| Some (Sending r) =>
  if (length (results s) <? capacity)%nat
  then Some (mkState (port s) (ports s) (ports_closed s)
               (<[i := Receiving]> (pool s)) (results s ++ [r])
               (results_closed s) (openPorts s) (returned s) (attempts s))
  else None
| _ => None
end
  | Exit i =>
match pool s !! i, ports s with
| Some Receiving, [] =>
  if ports_closed s then Some (set_worker i Exited s) else None
| _, _ => None
end
  | CloseResults =>
if all_exited (pool s) && negb (results_closed s)
then Some (mkState (port s) (ports s) (ports_closed s) (pool s)
           (results s) true (openPorts s) (returned s) (attempts s))
else None
  | Collect =>
match results s with
| r :: rest =>
  if returned s then None
  else Some (mkState (port s) (ports s) (ports_closed s) (pool s) rest
               (results_closed s) (openPorts s ++ [r]) (returned s)
               (attempts s))
| [] => None
end
  | Return =>
match results s with
| [] =>
  if results_closed s && negb (returned s)
  then Some (mkState (port s) (ports s) (ports_closed s) (pool s) []
               (results_closed s) (openPorts s) true (attempts s))
  else None
| _ :: _ => None
end
  end.

(** Running a schedule from a state; [None] when some action of the
    schedule is not enabled when its turn comes. *)
Fixpoint run (sched : list action) (s : state) : option state :=
  match sched with
  | [] => Some s
  | a :: sched =>
match step a s with
| Some s' => run sched s'
| None => None
end
  end.

(** The job set: the ports [startPort], ..., [endPort] in order. *)
Definition jobs : list Z := upto startPort (endPort + 1).

(** No goroutine of the call can take a step any more. *)
Definition stuck (s : state) : Prop := forall a, step a s = None.

End Scan.

(** The ports the dials of the log were made to, and the results of the
    successful ones. *)
Definition attempted (log : list (nat * Z * bool)) : list Z :=
  map (fun e => snd (fst e)) log.

Definition successes (log : list (nat * Z * bool)) : list ScanResult :=
  map (fun e => mkScanResult (snd (fst e)) true "")
      (filter (fun e => snd e = true) log).

(** The ports being dialled and the results waiting to be published. *)
Definition dialing (pool : list worker) : list Z :=
  omap (fun w => match w with Dialing p => Some p | _ => None end) pool.

Definition sending (pool : list worker) : list ScanResult :=
  omap (fun w => match w with Sending r => Some r | _ => None end) pool.

(** What is true of every state of a call with [W] workers: the pool
    keeps its size and the loop variable stays an [int]; the producer
    closes [ports] only once past [endPort]; a worker exits only when
    [ports] is closed and drained; [results] is closed only once every
    worker has exited; the call returns only once [results] is closed and
    drained; and the results collected, queued or about to be sent are the
    successful dials. *)
Definition pool_inv (W : nat) (endPort : Z) (s : state) : Prop :=
  length (pool s) = W
  /\ in_int64 (port s)
  /\ (ports_closed s = true -> endPort < port s)
  /\ ((exists i, pool s !! i = Some Exited) -> ports_closed s = true /\ ports s = [])
  /\ (results_closed s = true -> all_exited (pool s) = true)
  /\ (returned s = true -> results_closed s = true /\ results s = [])
  /\ openPorts s ++ results s ++ sending (pool s) ≡ₚ successes (attempts s).

(** While the loop variable cannot overflow: the ports produced so far are
    [startPort], ..., [port - 1], and each of them is in the channel, being
    dialled, or was dialled, once. *)
Definition range_inv (startPort endPort : Z) (s : state) : Prop :=
  startPort <= port s <= Z.max startPort (endPort + 1)
  /\ attempted (attempts s) ++ dialing (pool s) ++ ports s ≡ₚ upto startPort (port s).

(** A bound on the number of steps that remain. *)
Definition weight (w : worker) : nat :=
  match w with
  | Receiving => 1
  | Dialing _ => 5
  | Sending _ => 4
  | Exited => 0
  end.

Definition fuel (endPort : Z) (s : state) : nat :=
  (7 * Z.to_nat (endPort - port s + 1)
   + (if ports_closed s then 0 else 1)
   + 6 * length (ports s)
   + sum_list (map weight (pool s))
   + 2 * length (results s)
   + (if results_closed s then 0 else 1)
   + (if returned s then 0 else 1))%nat.

(** A network on which only port 9 of localhost accepts connections, and
    one that refuses everything. *)
Definition only9 : dialer :=
  fun _ address _ =>
    if String.eqb address "localhost:9" then Ok () else Err "connection refused".

Definition refuse : dialer := fun _ _ _ => Err "connection refused".

(** A complete schedule of [scanPorts("localhost", 7, 9, 500ms, 2)]. *)
Definition schedule_7_9 : list action :=
  [ Produce; Produce; Recv 0; Recv 1; Produce; ClosePorts;
    Dial 1 only9; Dial 0 only9; Recv 1; Exit 0; Dial 1 only9; Publish 1;
    Collect; Exit 1; CloseResults; Return ].

(** The beginning of a run of [scanPorts] on the one-port range that ends
    at the largest [int]. *)
Definition schedule_max : list action :=
  [ Produce; Recv 0; Dial 0 refuse; Produce; Recv 0; Dial 0 refuse ].

(** [func getServiceName]: the table of well-known ports and the lookup
    in it. *)
Definition services : gmap Z string :=
  list_to_map
    [ (21, "FTP"); (22, "SSH"); (23, "Telnet"); (25, "SMTP"); (53, "DNS");
      (80, "HTTP"); (110, "POP3"); (143, "IMAP"); (443, "HTTPS"); (445, "SMB");
      (993, "IMAPS"); (995, "POP3S"); (3306, "MySQL"); (3389, "RDP");
      (5432, "PostgreSQL"); (6379, "Redis"); (8080, "HTTP-Alt");
      (8443, "HTTPS-Alt"); (27017, "MongoDB") ].

Definition getServiceName (port : Z) : string :=
  match services !! port with
  | Some name => name
  | None => "unknown"
  end.

(** The order [sort.Slice] is given in [main]: by port number
    ([results[i].Port < results[j].Port], here in its reflexive form). *)
Definition by_port (a b : ScanResult) : Prop := Port a <= Port b.

#[global] Instance by_port_dec : RelDecision by_port.
Proof. intros a b. unfold by_port. apply _. Defined.

(** [sort.Slice(results, ...)]. Go's sort is not stable; the results of a
    scan have distinct ports, for which every sort gives the same slice. *)
Definition sortSlice (results : list ScanResult) : list ScanResult :=
  merge_sort by_port results.

Definition rule : string := "─────────────────────────────────".

Section Display.

(** [%v] of the elapsed [time.Duration]. *)
Variable fmt_v : Z -> string.

(** What [main] writes to standard output once [scanPorts] has returned
    [results] after [elapsed] nanoseconds; [startPort] and [endPort] are
    the flags. *)
Definition display (results : list ScanResult) (startPort endPort elapsed : Z)
    : list HealthChecker.output :=
  [HealthChecker.Println "\n📊 Results:"; HealthChecker.Println rule]
  ++ (if bool_decide (length results = 0%nat)
      then [HealthChecker.Println "No open ports found"]
      else map (fun r => HealthChecker.Printf "  Port %5d: OPEN  (%s)\n"
                           [fmt_d (Port r); getServiceName (Port r)])
             (sortSlice results))
  ++ [HealthChecker.Println rule;
      HealthChecker.Printf "Scan completed in %v\n" [fmt_v elapsed];
      HealthChecker.Printf "Open ports: %d/%d\n"
        [fmt_d (Z.of_nat (length results));
         fmt_d (wrap64 (wrap64 (endPort - startPort) + 1))]].

End Display.

(** Every dial of the schedule meets the same network. *)
Definition uses (net : dialer) (sched : list action) : Prop :=
  Forall (fun a => match a with Dial _ n => n = net | _ => True end) sched.

(** Whether a port of [host] accepts a connection on the network [net]. *)
Definition accepts (host : string) (timeout : Z) (net : dialer) (p : Z) : bool :=
  Open (scanPort host p timeout net).

(** The dial log agrees with the network [net]: every dial recorded as
    successful was to a port that [net] accepts, and conversely. *)
Definition stable_log (host : string) (timeout : Z) (net : dialer)
    (log : list (nat * Z * bool)) : Prop :=
  Forall (fun e => e.2 = accepts host timeout net e.1.2) log.

(** What is true of every state of a call started without workers: nothing
    is dialled or collected, and the producer has filled [ports] with the
    first ports of the range and is stopped by the full channel. *)
Definition no_worker_inv (startPort endPort : Z) (s : state) : Prop :=
  pool s = [] /\ attempts s = [] /\ results s = [] /\ openPorts s = []
  /\ (length (ports s) <= capacity)%nat
  /\ in_int64 (port s)
  /\ (endPort = max_int64 \/ port s = startPort + Z.of_nat (length (ports s)))
  /\ (ports_closed s = true -> endPort < port s).




End PortScanner.

(** ** ICMP ping *)

Module Ping.

(** [ipv4.ICMPTypeEcho] and [ipv4.ICMPTypeEchoReply]. *)
Definition ICMPTypeEcho : Z := 8.
Definition ICMPTypeEchoReply : Z := 0.

(** [icmp.Echo] inside an [icmp.Message]. *)
Record Message : Type := mkMessage {
  Type_ : Z;
  Code : Z;
  ID : Z;
  Seq : Z;
  Data : string
}.

(** What the operating system and the network answer during one call of
    [ping]. [since] is the reading of [time.Since(start)] at the moment
    [conn.ReadFrom] returns, whether it returns a reply or an error;
    [ParseMessage] yields the type of the parsed message and [fmt_v] is
    how [%v] renders such a type. *)
Record world : Type := mkWorld {
  ListenPacket : result unit;
  Getpid : Z;
  Marshal : Message -> result (list Byte.byte);
  SetDeadline : Z -> result unit;
  WriteTo : list Byte.byte -> result unit;
  ReadFrom : result (list Byte.byte);
  since : Z;
  ParseMessage : Z -> list Byte.byte -> result Z;
  fmt_v : Z -> string
}.

Definition protocolICMP : Z := 1.

(** A Go [(time.Duration, error)] pair; [None] is the [nil] error. *)
Definition outcome : Type := Z * option string.

(** [x, err := call; if err != nil { return 0, fmt.Errorf("what: %w", err) }] *)
Definition try {A : Type} (call : result A) (what : string)
    (k : A -> outcome) : outcome :=
  match call with
  | Ok x => k x
  | Err err => (0, Some (what +:+ ": " +:+ err))
  end.

Notation "x <- call 'or' what ;; k" := (try call what (fun x => k))
  (at level 200, call at level 10, what at level 10, right associativity).

(** [func ping]; [now] is the instant at which the deadline is set. *)
Definition ping (w : world) (seq : Z) (timeout : Z) (now : Z) : outcome :=
  _ <- ListenPacket w or "listen error" ;;
  let msg := mkMessage ICMPTypeEcho 0 (Z.land (Getpid w) 65535) seq
       "PING from Go exercise!" in
  msgBytes <- Marshal w msg or "marshal error" ;;
  _ <- SetDeadline w (now + timeout) or "set deadline" ;;
  _ <- WriteTo w msgBytes or "write error" ;;
  reply <- ReadFrom w or "read error" ;;
  let rtt := since w in
  rm <- ParseMessage w protocolICMP reply or "parse error" ;;
  if bool_decide (rm <> ICMPTypeEchoReply)
  then (0, Some ("unexpected ICMP type: " +:+ fmt_v w rm))
  else (rtt, None).

(** A world in which the echo request is sent and no reply arrives before
    the deadline, two seconds later. *)
Definition silent : world :=
  mkWorld (Ok ()) 4242 (fun _ => Ok []) (fun _ => Ok ()) (fun _ => Ok ())
    (Err "i/o timeout") (2 * Second) (fun _ _ => Err "message too short") pretty.

(** [type PingResult struct] *)
Record PingResult : Type := mkPingResult {
  Host : string;
  PacketsSent : Z;
  PacketsRecv : Z;
  MinRTT : Z;
  MaxRTT : Z;
  AvgRTT : Z;
  TotalRTT : Z
}.

Definition Hour : Z := 3600 * Second.

(** What [main] does that can be observed: a call of [ping] with a
    sequence number, a line on standard output, a [time.Sleep]. *)
Inductive event : Type :=
| Pinged (seq : Z)
| Printed (line : HealthChecker.output)
| Slept (d : Z).

(** The bookkeeping of one iteration of the loop of [main], given what
    [ping] returned. *)
Definition tally (o : outcome) (r : PingResult) : PingResult :=
  let sent := wrap64 (PacketsSent r + 1) in
  match o.2 with
  | Some _ =>
      mkPingResult (Host r) sent (PacketsRecv r) (MinRTT r) (MaxRTT r) (AvgRTT r)
        (TotalRTT r)
  | None =>
      let rtt := o.1 in
      mkPingResult (Host r) sent (wrap64 (PacketsRecv r + 1))
        (if rtt <? MinRTT r then rtt else MinRTT r)
        (if MaxRTT r <? rtt then rtt else MaxRTT r)
        (AvgRTT r) (wrap64 (TotalRTT r + rtt))
  end.

Section Main.

(** The flags of [main]. *)
Variables (host : string) (count timeout interval : Z).
(** The world each [ping] meets and the instant it starts at, by sequence
    number; the rendering of [dst.IP], of [float64(us)/1000] under [%.2f]
    and of the loss percentage under [%.1f]. *)
Variables (worlds : Z -> world) (clock : Z -> Z).
Variables (ip : string) (fmt_2f : Z -> string) (fmt_loss : Z -> Z -> string).

(** The loop [for i := 0; i < *count; i++] from index [i] on, for at most
    [fuel] iterations. *)
Fixpoint pingLoop (fuel : nat) (i : Z) (r : PingResult) : PingResult * list event :=
  match fuel with
  | O => (r, [])
  | S fuel =>
      if i <? count
      then
        let seq := wrap64 (i + 1) in
        let o := ping (worlds seq) seq timeout (clock seq) in
        let r := tally o r in
        let line :=
          match o.2 with
          | Some _ => HealthChecker.Printf "Request timeout for seq %d\n" [fmt_d seq]
          | None =>
              HealthChecker.Printf "Reply from %s: seq=%d time=%.2fms\n"
                [ip; fmt_d seq; fmt_2f (HealthChecker.Microseconds o.1)]
          end in
        let sleep := if i <? wrap64 (count - 1) then [Slept interval] else [] in
        let rest := pingLoop fuel (wrap64 (i + 1)) r in
        (rest.1, Pinged seq :: Printed line :: sleep ++ rest.2)
      else (r, [])
  end.

(** The statistics printed after the loop, and the result with its
    average filled in when a reply was received. *)
Definition summary (r : PingResult) : PingResult * list event :=
  let head :=
    [ Printed (HealthChecker.Println PortScanner.rule);
      Printed (HealthChecker.Printf "\n--- %s ping statistics ---\n" [host]);
      Printed (HealthChecker.Printf
                 "%d packets transmitted, %d received, %.1f%% packet loss\n"
                 [fmt_d (PacketsSent r); fmt_d (PacketsRecv r);
                  fmt_loss (PacketsSent r) (PacketsRecv r)]) ] in
  if 0 <? PacketsRecv r
  then
    let avg := TotalRTT r `quot` PacketsRecv r in
    let r := mkPingResult (Host r) (PacketsSent r) (PacketsRecv r) (MinRTT r)
               (MaxRTT r) avg (TotalRTT r) in
    (r, head ++ [Printed (HealthChecker.Printf "rtt min/avg/max = %.2f/%.2f/%.2f ms\n"
                            [fmt_2f (HealthChecker.Microseconds (MinRTT r));
                             fmt_2f (HealthChecker.Microseconds (AvgRTT r));
                             fmt_2f (HealthChecker.Microseconds (MaxRTT r))])])
  else (r, head).

(** How [main] ends: [os.Exit(1)] for want of privilege, [log.Fatalf], or
    the end of the function with the statistics and everything done. *)
Inductive ending : Type :=
| Exit1
| Fatal (msg : string)
| Finished (result : PingResult) (trace : list event).

(** [func main]; [euid] is [os.Geteuid()] and [resolved] what
    [net.ResolveIPAddr("ip4", host)] returns. *)
Definition main (euid : Z) (resolved : result unit) : ending :=
  if bool_decide (euid <> 0) then Exit1
  else
    match resolved with
    | Err err => Fatal ("Failed to resolve " +:+ host +:+ ": " +:+ err)
    | Ok _ =>
        let banner :=
          [ Printed (HealthChecker.Printf "PING %s (%s)\n" [host; ip]);
            Printed (HealthChecker.Println PortScanner.rule) ] in
        let result := mkPingResult host 0 0 Hour 0 0 0 in
        let looped := pingLoop (Z.to_nat count) 0 result in
        let final := summary looped.1 in
        Finished final.1 (banner ++ looped.2 ++ final.2)
    end.

End Main.

(** The sequence numbers pinged in a trace, and the sleeps in it. *)
Definition pinged (tr : list event) : list Z :=
  omap (fun ev => match ev with Pinged seq => Some seq | _ => None end) tr.

Definition sleeps (tr : list event) : list Z :=
  omap (fun ev => match ev with Slept d => Some d | _ => None end) tr.

(** A world in which the echo reply arrives after 20 milliseconds, and a
    run of worlds in which only the second request goes unanswered. *)
Definition echoing : world :=
  mkWorld (Ok ()) 4242 (fun _ => Ok []) (fun _ => Ok ()) (fun _ => Ok ())
    (Ok []) (20 * Millisecond) (fun _ _ => Ok ICMPTypeEchoReply) pretty.

Definition flaky (seq : Z) : world := if seq =? 2 then silent else echoing.

End Ping.

(** ** The result store under its lock *)

(** [updateStatus] and [printStatus] as the goroutines run them: one
    writer per monitored endpoint, any number of readers, and the
    [sync.RWMutex] [hc.mu] between them.  A map assignment is not atomic
    for Go's runtime, so it takes two steps here and the slot is [Torn]
    in between. *)
Module ResultStore.
Import HealthChecker.

Inductive slot : Type :=
| Whole (status : HealthStatus)
| Torn.

(** [sync.RWMutex]: held for writing, and the number of read locks held. *)
Record RWMutex : Type := mkRWMutex {
  writing : bool;
  reading : nat
}.

(** The arguments of one call of [updateStatus], and the instant
    [time.Now()] yields in it. *)
Record call : Type := mkCall {
  ep : Endpoint;
  healthy : bool;
  latency : Z;
  errMsg : string;
  now : Z
}.

(** The struct that the call allocates. *)
Definition allocated (c : call) : HealthStatus :=
  mkHealthStatus (ep c) (healthy c) (latency c) (now c) (errMsg c).

(** A writer goroutine with respect to [updateStatus]. *)
Inductive writer : Type :=
| Outside                  (* not in [updateStatus] *)
| Locked (c : call)        (* after [hc.mu.Lock()] *)
| Storing (c : call)       (* in the middle of the map assignment *)
| Stored.                  (* assignment done, before the deferred [Unlock] *)

(** A reader goroutine with respect to [printStatus]: outside, or in the
    loop having looked up the entries of the first [length seen]
    endpoints and found [seen]. *)
Inductive reader : Type :=
| Away
| Looping (seen : list (option slot)).

Record state : Type := mkState {
  endpoints : list Endpoint;
  mu : RWMutex;
  statuses : gmap string slot;
  writers : list writer;
  readers : list reader;
  puts : list call;                       (* ghost: completed assignments *)
  snapshots : list (list (option slot))   (* ghost: completed [printStatus] *)
}.

Inductive action : Type :=
| Lock (i : nat) (c : call)   (* writer [i] enters [updateStatus]: [hc.mu.Lock()] *)
| StoreBegin (i : nat)        (* the map assignment starts *)
| StoreEnd (i : nat)          (* the map assignment ends *)
| Unlock (i : nat)            (* [hc.mu.Unlock()] *)
| RLock (j : nat)             (* reader [j] enters [printStatus]: [hc.mu.RLock()] *)
| Lookup (j : nat)            (* [status, ok := hc.statuses[ep.Name]] and its use *)
| RUnlock (j : nat).          (* loop over, [hc.mu.RUnlock()] *)

Definition step (a : action) (s : state) : option state :=
  match a with
  | Lock i c =>
      match writers s !! i with
      | Some Outside =>
  if negb (writing (mu s)) && (reading (mu s) =? 0)%nat
  then Some (mkState (endpoints s) (mkRWMutex true (reading (mu s)))
               (statuses s) (<[i := Locked c]> (writers s)) (readers s)
               (puts s) (snapshots s))
  else None
      | _ => None
      end
  | StoreBegin i =>
      match writers s !! i with
      | Some (Locked c) =>
  Some (mkState (endpoints s) (mu s) (<[Name (ep c) := Torn]> (statuses s))
          (<[i := Storing c]> (writers s)) (readers s) (puts s) (snapshots s))
      | _ => None
      end
  | StoreEnd i =>
      match writers s !! i with
      | Some (Storing c) =>
  Some (mkState (endpoints s) (mu s)
          (<[Name (ep c) := Whole (allocated c)]> (statuses s))
          (<[i := Stored]> (writers s)) (readers s) (puts s ++ [c])
          (snapshots s))
      | _ => None
      end
  | Unlock i =>
      match writers s !! i with
      | Some Stored =>
  Some (mkState (endpoints s) (mkRWMutex false (reading (mu s)))
          (statuses s) (<[i := Outside]> (writers s)) (readers s)
          (puts s) (snapshots s))
      | _ => None
      end
  | RLock j =>
      match readers s !! j with
      | Some Away =>
  if negb (writing (mu s))
  then Some (mkState (endpoints s) (mkRWMutex false (S (reading (mu s))))
               (statuses s) (writers s) (<[j := Looping []]> (readers s))
               (puts s) (snapshots s))
  else None
      | _ => None
      end
  | Lookup j =>
      match readers s !! j with
      | Some (Looping seen) =>
  match endpoints s !! length seen with
  | Some e =>
      Some (mkState (endpoints s) (mu s) (statuses s) (writers s)
              (<[j := Looping (seen ++ [statuses s !! Name e])]> (readers s))
              (puts s) (snapshots s))
  | None => None
  end
      | _ => None
      end
  | RUnlock j =>
      match readers s !! j with
      | Some (Looping seen) =>
  match endpoints s !! length seen with
  | Some _ => None
  | None =>
      Some (mkState (endpoints s)
              (mkRWMutex (writing (mu s)) (pred (reading (mu s))))
              (statuses s) (writers s) (<[j := Away]> (readers s))
              (puts s) (snapshots s ++ [seen]))
  end
      | _ => None
      end
  end.

Fixpoint run (sched : list action) (s : state) : option state :=
  match sched with
  | [] => Some s
  | a :: sched =>
      match step a s with
      | Some s' => run sched s'
      | None => None
      end
  end.

(** The store as [main] builds it, with [nw] writers and [nr] readers
    outside their critical sections. *)
Definition init (endpoints : list Endpoint) (nw nr : nat) : state :=
  mkState endpoints (mkRWMutex false 0) ∅ (replicate nw Outside)
    (replicate nr Away) [] [].

(** Everything the readers have looked up so far. *)
Definition observed (s : state) : list (option slot) :=
  concat (snapshots s)
    ++ concat (omap (fun r => match r with Looping seen => Some seen | Away => None end)
         (readers s)).

(** The complete entries of the store. *)
Definition complete (m : gmap string slot) : gmap string HealthStatus :=
  omap (fun v => match v with Whole st => Some st | Torn => None end) m.

(** Writers inside [updateStatus] and readers inside [printStatus]. *)
Definition in_update (w : writer) : nat :=
  match w with Outside => 0 | _ => 1 end.

Definition in_print (r : reader) : nat :=
  match r with Away => 0 | Looping _ => 1 end.

(** What a reader may find under a key: nothing, or the struct allocated by
    a completed call of [updateStatus]; never a torn slot. *)
Definition sound (puts : list call) (o : option slot) : Prop :=
  match o with
  | None => True
  | Some Torn => False
  | Some (Whole status) => exists c, c ∈ puts /\ status = allocated c
  end.

(** The lock discipline: the mutex records who is inside; a writer
    excludes every reader; a slot is torn only while some writer is in the
    middle of its assignment to that key; and what is stored, and what
    every reader has seen, is sound. *)
Definition store_inv (s : state) : Prop :=
  sum_list (map in_update (writers s)) = (if writing (mu s) then 1 else 0)%nat
  /\ sum_list (map in_print (readers s)) = reading (mu s)
  /\ (writing (mu s) = true -> reading (mu s) = 0%nat)
  /\ (forall k, statuses s !! k = Some Torn ->
      exists i c, writers s !! i = Some (Storing c) /\ Name (ep c) = k)
  /\ (forall k status, statuses s !! k = Some (Whole status) ->
      exists c, c ∈ puts s /\ status = allocated c)
  /\ (forall j seen, readers s !! j = Some (Looping seen) -> Forall (sound (puts s)) seen)
  /\ Forall (Forall (sound (puts s))) (snapshots s).

(** The schedule of one uncontended call of [updateStatus] by writer [i]. *)
Definition put (i : nat) (c : call) : list action :=
  [Lock i c; StoreBegin i; StoreEnd i; Unlock i].

(** One endpoint, one writer, one reader: a report before the first
    probe, a failed probe, a report after it. *)
Definition epA : Endpoint :=
  mkEndpoint "A" "http://127.0.0.1:9" (100 * Millisecond) (50 * Millisecond) 200.

Definition callA : call := mkCall epA false 1200 "connection refused" 5.

Definition schedule_rw : list action :=
  [RLock 0; Lookup 0; RUnlock 0] ++ put 0 callA ++ [RLock 0; Lookup 0; RUnlock 0].

(** What a reader inside [printStatus] has seen is what the store holds
    now, and every finished report has one entry per endpoint. *)
Definition view_inv (s : state) : Prop :=
  (forall j seen, readers s !! j = Some (Looping seen) ->
     seen = map (fun e => statuses s !! Name e) (take (length seen) (endpoints s)))
  /\ Forall (fun snap => length snap = length (endpoints s)) (snapshots s).

End ResultStore.


(** ** The TCP echo server: one connection

    [func handleConnection] of [exercises/01-tcp-echo/main.go]. *)

Module TcpEcho.

(** The line feed, the delimiter of [reader.ReadString]. *)
Definition nl : string := String (Ascii.ascii_of_nat 10) "".

(** What [reader.ReadString] returns: the data up to and including the
    delimiter with a nil error, or an error (with whatever was read before
    it, which the handler drops). *)
Inductive read : Type :=
| Line (data : string)
| ReadErr (partial : string) (err : string).

(** One iteration of the loop of [handleConnection]: whether [ctx.Done()]
    is ready when it is looked at, and what the read returns if it is
    reached. *)
Record turn : Type := mkTurn {
  ctx_done : bool;
  input : read
}.

(** What the handler does with the connection and the log. A write is
    recorded as attempted: the handler ignores its result. A log line is
    the text after the logger's prefix. *)
Inductive event : Type :=
| Wrote (data : string)
| Logged (line : string)
| Closed.

(** Where the handler is after the turns given: blocked in the next read,
    returned, or stopped by the run-time panic of [message[:len(message)-1]]
    on an empty string. *)
Inductive status : Type := Reading | Returned | Panicked.

(** [message[:len(message)-1]]: [None] for the slice out of range. *)
Definition chop (message : string) : option string :=
  match String.length message with
  | O => None
  | S n => Some (String.substring 0 n message)
  end.

(** The [for] loop of [handleConnection]. *)
Fixpoint serve (clientAddr : string) (turns : list turn) : list event * status :=
  match turns with
  | [] => ([], Reading)
  | t :: turns =>
      if ctx_done t
      then ([Wrote ("Server shutting down. Goodbye!" +:+ nl)], Returned)
      else
        match input t with
        | ReadErr _ _ => ([Logged ("📤 Client disconnected: " +:+ clientAddr)], Returned)
        | Line message =>
            match chop message with
            | None => ([], Panicked)
            | Some message =>
                if bool_decide (message = "quit")
                then ([Wrote ("Goodbye!" +:+ nl);
                       Logged ("📤 Client quit: " +:+ clientAddr)],
                      Returned)
                else
                  let rest := serve clientAddr turns in
                  (Wrote ("Echo: " +:+ message +:+ nl)
                     :: Logged ("💬 [" +:+ clientAddr +:+ "] " +:+ message) :: rest.1,
                   rest.2)
            end
        end
  end.

(** The three lines sent to every client first. *)
Definition welcome : list string :=
  [ "Welcome to TCP Echo Server!" +:+ nl;
    "Type messages and I'll echo them back." +:+ nl;
    "Type 'quit' to disconnect." +:+ nl +:+ nl ].

(** [func handleConnection]: the welcome, the loop, and the deferred
    [conn.Close()] once the function is left. *)
Definition handleConnection (clientAddr : string) (turns : list turn)
    : list event * status :=
  let served := serve clientAddr turns in
  (Logged ("📥 Client connected: " +:+ clientAddr)
     :: map Wrote welcome
     ++ served.1
     ++ match served.2 with Reading => [] | Returned | Panicked => [Closed] end,
   served.2).

(** The data written to the connection, in order. *)
Definition written (tr : list event) : list string :=
  omap (fun ev => match ev with Wrote data => Some data | _ => None end) tr.

(** The turn in which the context is not done and the client's line
    [message] arrives, line feed included. *)
Definition says (message : string) : turn := mkTurn false (Line (message +:+ nl)).

(** The answer to a line that is not the quit command. *)
Definition echo (message : string) : string := "Echo: " +:+ message +:+ nl.

(** The carriage return a telnet client sends before the line feed. *)
Definition cr : string := String (Ascii.ascii_of_nat 13) "".

End TcpEcho.

(** ** The UDP echo server: the receive loop

    The [for] loop of [func main] of the UDP echo exercise, with the
    statistics it keeps. *)

Module UdpEcho.

Record Stats : Type := mkStats {
  PacketsReceived : Z;
  BytesReceived : Z;
  PacketsSent : Z
}.

(** One iteration of the receive loop, as the network answers it:
    [conn.ReadFromUDP] fails (and a signal is or is not waiting in
    [sigChan]), or it delivers [n] bytes, [string(buffer[:n])] being [data],
    from [clientAddr], and [conn.WriteToUDP] then succeeds or not. *)
Inductive arrival : Type :=
| ReadFail (err : string) (signalled : bool)
| Datagram (data : string) (clientAddr : string) (write_err : option string).

Inductive event : Type :=
| Logged (format : string) (args : list string)
| Sent (data : string) (to : string).

Inductive status : Type := Receiving | Returned.

(** The body of the [for] loop of [main], from the statistics [stats]. *)
Fixpoint receive (stats : Stats) (arrivals : list arrival)
    : list event * Stats * status :=
  match arrivals with
  | [] => ([], stats, Receiving)
  | ReadFail err signalled :: arrivals =>
      if signalled then ([], stats, Returned)
      else
        let rest := receive stats arrivals in
        (Logged "Read error: %v" [err] :: rest.1.1, rest.1.2, rest.2)
  | Datagram message clientAddr write_err :: arrivals =>
      let n := Z.of_nat (String.length message) in
      let stats := mkStats (wrap64 (PacketsReceived stats + 1))
                           (wrap64 (BytesReceived stats + n))
                           (PacketsSent stats) in
      let response := "Echo: " +:+ message in
      let stats' :=
        match write_err with
        | Some _ => stats
        | None => mkStats (PacketsReceived stats) (BytesReceived stats)
                          (wrap64 (PacketsSent stats + 1))
        end in
      let rest := receive stats' arrivals in
      (Logged "📨 Received from %s: %s" [clientAddr; message]
         :: Sent response clientAddr
         :: match write_err with
            | Some err => [Logged "Write error: %v" [err]]
            | None => []
            end ++ rest.1.1,
       rest.1.2, rest.2)
  end.

(** The datagrams handed to [conn.WriteToUDP], in order. *)
Definition sent (tr : list event) : list (string * string) :=
  omap (fun ev => match ev with Sent data to => Some (data, to) | _ => None end) tr.

(** The datagrams read before the loop returns: those before the first
    failed read that finds a signal waiting. *)
Fixpoint received (arrivals : list arrival) : list (string * string) :=
  match arrivals with
  | [] => []
  | ReadFail _ signalled :: arrivals => if signalled then [] else received arrivals
  | Datagram data clientAddr _ :: arrivals => (data, clientAddr) :: received arrivals
  end.

(** Among them, those whose answer was written without an error. *)
Fixpoint answered (arrivals : list arrival) : list (string * string) :=
  match arrivals with
  | [] => []
  | ReadFail _ signalled :: arrivals => if signalled then [] else answered arrivals
  | Datagram data clientAddr None :: arrivals => (data, clientAddr) :: answered arrivals
  | Datagram _ _ (Some _) :: arrivals => answered arrivals
  end.

(** The bytes of the datagrams [l]. *)
Definition bytes (l : list (string * string)) : Z :=
  foldr (fun d acc => Z.of_nat (String.length d.1) + acc) 0 l.

(** The argument lists of the log lines written with the format [format],
    in order. *)
Definition logged (format : string) (tr : list event) : list (list string) :=
  omap (fun ev => match ev with
                  | Logged f args => if String.eqb f format then Some args else None
                  | Sent _ _ => None
                  end) tr.

(** The errors of the failed reads after which the loop goes on, and of
    the failed writes, before the loop returns. *)
Fixpoint read_errors (arrivals : list arrival) : list string :=
  match arrivals with
  | [] => []
  | ReadFail err signalled :: arrivals =>
      if signalled then [] else err :: read_errors arrivals
  | Datagram _ _ _ :: arrivals => read_errors arrivals
  end.

Fixpoint write_errors (arrivals : list arrival) : list string :=
  match arrivals with
  | [] => []
  | ReadFail _ signalled :: arrivals => if signalled then [] else write_errors arrivals
  | Datagram _ _ (Some err) :: arrivals => err :: write_errors arrivals
  | Datagram _ _ None :: arrivals => write_errors arrivals
  end.

(** Some read fails with a signal waiting. *)
Definition interrupted (arrivals : list arrival) : bool :=
  existsb (fun a => match a with ReadFail _ signalled => signalled | _ => false end)
    arrivals.

End UdpEcho.

(** * Properties *)

(** ** Lists updated at an index *)

Lemma omap_insert_perm {A B} (f : A -> option B) (l : list A) i x y :
  l !! i = Some x ->
  option_list (f x) ++ omap f (<[i := y]> l) ≡ₚ option_list (f y) ++ omap f l.
Proof.
  revert i. induction l as [|a l IH]; intros [|i] Hi; simplify_eq/=.
  - destruct (f x), (f y); simpl; try done. apply perm_swap.
  - specialize (IH i Hi). destruct (f a) as [b|]; [|done].
    rewrite <- !Permutation_middle. by constructor.
Qed.

Lemma omap_replicate_None {A B} (f : A -> option B) n x :
  f x = None -> omap f (replicate n x) = [].
Proof. intros Hx. induction n as [|n IH]; simpl; [done|]. by rewrite Hx. Qed.

Lemma sum_list_insert {A} (f : A -> nat) (l : list A) i x y :
  l !! i = Some x ->
  (sum_list (map f (<[i := y]> l)) + f x = sum_list (map f l) + f y)%nat.
Proof.
  revert i. induction l as [|a l IH]; intros [|i] Hi; simplify_eq/=.
  - lia.
  - specialize (IH i Hi). lia.
Qed.

Lemma sum_list_lookup {A} (f : A -> nat) (l : list A) i x :
  l !! i = Some x -> (f x <= sum_list (map f l))%nat.
Proof.
  revert i. induction l as [|a l IH]; intros [|i] Hi; simplify_eq/=.
  - lia.
  - specialize (IH i Hi). lia.
Qed.

Lemma sum_list_replicate {A} (f : A -> nat) n x :
  sum_list (map f (replicate n x)) = (n * f x)%nat.
Proof. induction n as [|n IH]; simpl; [done|]. by rewrite IH. Qed.

(** ** The health checker *)

Module HealthCheckerSpec.
Import HealthChecker.

Lemma statuses_updateStatus ep healthy latency errMsg now hc :
  statuses (updateStatus ep healthy latency errMsg now hc) !! Name ep
  = Some (mkHealthStatus ep healthy latency now errMsg).
Proof. unfold updateStatus; cbn. apply lookup_insert_eq. Qed.

Lemma endpoints_checkEndpoint ep a now hc :
  endpoints (checkEndpoint ep a now hc) = endpoints hc.
Proof. by destruct a. Qed.

Lemma checkEndpoint_other ep a now hc name :
  name <> Name ep ->
  statuses (checkEndpoint ep a now hc) !! name = statuses hc !! name.
Proof. intros Hne. destruct a; simpl; by rewrite lookup_insert_ne. Qed.

Lemma checkEndpoint_writes ep a now hc :
  is_Some (statuses (checkEndpoint ep a now hc) !! Name ep).
Proof. destruct a; simpl; rewrite lookup_insert_eq; eauto. Qed.

(** C3. When a response arrives, the entry that [checkEndpoint] records for
    the endpoint is healthy exactly when the observed status code equals
    the expected one; on a mismatch it is unhealthy and its error text is
    "status <observed> (expected <expected>)", and on a match the error
    text is empty. *)
Theorem checkEndpoint_response ep since code now hc :
  exists st,
    statuses (checkEndpoint ep (DoResp since code) now hc) !! Name ep = Some st
    /\ Latency st = since
    /\ (Healthy st = true <-> code = ExpectedStatus ep)
    /\ (code <> ExpectedStatus ep ->
        Healthy st = false
        /\ Error st = "status " +:+ fmt_d code +:+ " (expected "
                      +:+ fmt_d (ExpectedStatus ep) +:+ ")")
    /\ (code = ExpectedStatus ep -> Error st = "").
Proof.
  eexists. split; [apply statuses_updateStatus|]. simpl.
  split; [done|]. split; [apply bool_decide_eq_true|].
  split; intros H.
  - by rewrite bool_decide_eq_false_2.
  - by rewrite bool_decide_eq_true_2.
Qed.

Example checkEndpoint_200_201 :
  let ep := mkEndpoint "stub" "http://127.0.0.1:8080" (5 * Second) (3 * Second) 201 in
  Error <$> statuses (checkEndpoint ep (DoResp 1000 200) 0
                        (mkHealthChecker [ep] (mkClient 100 10 0 None 0) ∅)) !! "stub"
  = Some "status 200 (expected 201)".
Proof. vm_compute. reflexivity. Qed.

(** *** The report *)

Lemma endpoints_after hist hc : endpoints (after hist hc) = endpoints hc.
Proof.
  revert hc. induction hist as [|p hist IH]; intros hc; [done|].
  unfold after in *; simpl. rewrite IH. apply endpoints_checkEndpoint.
Qed.

Lemma after_pending hist hc name :
  statuses (after hist hc) !! name = None
  <-> statuses hc !! name = None /\ name ∉ probed hist.
Proof.
  revert hc. induction hist as [|[[ep a] now] hist IH]; intros hc.
  - unfold probed; simpl. split; [|tauto]. intros H; split; [done|]. apply not_elem_of_nil.
  - unfold after in *; simpl. rewrite IH. unfold probed; simpl.
    rewrite not_elem_of_cons. destruct (decide (name = Name ep)) as [->|Hne].
    + pose proof (checkEndpoint_writes ep a now hc) as [st Hst].
      rewrite Hst. split; [intros [? _]; done|tauto].
    + rewrite checkEndpoint_other by done. tauto.
Qed.

Lemma read_line_printEndpoint fmt_ms (statuses : gmap string HealthStatus) ep :
  read_line (printEndpoint fmt_ms statuses ep)
  = Some (match statuses !! Name ep with
          | None => ShownPending
          | Some st => if Healthy st then ShownHealthy else ShownFailed
          end, Name ep).
Proof.
  unfold printEndpoint. destruct (statuses !! Name ep) as [st|]; [|reflexivity].
  destruct (Healthy st); simpl; case_bool_decide; reflexivity.
Qed.

Lemma NoDup_Name_inj (eps : list Endpoint) e1 e2 :
  NoDup (Name <$> eps) -> e1 ∈ eps -> e2 ∈ eps -> Name e1 = Name e2 -> e1 = e2.
Proof.
  induction eps as [|e eps IH]; [by intros _ ?%elem_of_nil|].
  rewrite fmap_cons, NoDup_cons. intros [Hnotin Hnd] H1 H2 Hname.
  apply elem_of_cons in H1 as [->|H1], H2 as [->|H2]; [done| | |by apply IH].
  - destruct Hnotin. rewrite Hname. by apply list_elem_of_fmap_2.
  - destruct Hnotin. rewrite <- Hname. by apply list_elem_of_fmap_2.
Qed.

(** C2, as the specification states it, fails: of two configured targets
    that share a name, only the first has been probed, and [printStatus]
    shows the second, never probed, as healthy and not as pending. *)
Lemma printStatus_shared_name_not_pending :
  let t1 := mkEndpoint "a" "http://one" (5 * Second) (3 * Second) 200 in
  let t2 := mkEndpoint "a" "http://two" (5 * Second) (3 * Second) 200 in
  let hist : list probe := [(t1, DoResp (20 * Millisecond) 200, 0)] in
  let hc := after hist
              (mkHealthChecker [t1; t2]
                 (mkClient 100 10 (90 * Second) None (10 * Second)) ∅) in
  t2 ∉ (fun p : probe => p.1.1) <$> hist
  /\ read_line <$> printStatus (fun us => fmt_d (us `quot` 1000) +:+ "ms") hc
     = [None; Some (ShownHealthy, "a"); Some (ShownHealthy, "a")].
Proof.
  split; [|reflexivity].
  intros [Heq|[]%elem_of_nil]%elem_of_cons. discriminate Heq.
Qed.

(** C2, amended. Whatever probes have completed since the checker was
    built (none included), [printStatus] writes its header and then exactly
    one line per configured endpoint, in the order of the endpoint list.
    The line of an endpoint names it and shows one of three states that can
    be told apart from the line alone: pending exactly when no probe has
    been recorded under the endpoint's name, and otherwise healthy or
    failed as the entry recorded under that name says.  When the configured
    names are distinct and the probes are of configured endpoints, the
    pending line is that of the endpoints never probed. *)
Theorem printStatus_one_line_per_target fmt_ms eps cl (hist : list probe) :
  let hc := after hist (mkHealthChecker eps cl ∅) in
  exists lines,
    printStatus fmt_ms hc = Println "\n📊 Health Status:" :: lines
    /\ length lines = length eps
    /\ forall i ep, eps !! i = Some ep ->
       exists o sh,
         lines !! i = Some o
         /\ read_line o = Some (sh, Name ep)
         /\ (sh = ShownPending <-> Name ep ∉ probed hist)
         /\ (forall st, statuses hc !! Name ep = Some st ->
             sh = if Healthy st then ShownHealthy else ShownFailed)
         /\ (NoDup (Name <$> eps) ->
             Forall (fun p : probe => p.1.1 ∈ eps) hist ->
             (sh = ShownPending <-> ep ∉ (fun p : probe => p.1.1) <$> hist)).
Proof.
  intros hc. eexists. split; [reflexivity|].
  assert (endpoints hc = eps) as -> by apply endpoints_after.
  split; [by rewrite length_map|]. intros i ep Hi.
  eexists _, _. split; [by rewrite list_lookup_fmap, Hi|].
  split; [apply read_line_printEndpoint|].
  pose proof (after_pending hist (mkHealthChecker eps cl ∅) (Name ep)) as Hp.
  fold hc in Hp. simpl in Hp. rewrite lookup_empty in Hp.
  assert (forall sh : shown,
            (sh = ShownPending <-> Name ep ∉ probed hist) ->
            NoDup (Name <$> eps) ->
            Forall (fun p : probe => p.1.1 ∈ eps) hist ->
            (sh = ShownPending <-> ep ∉ (fun p : probe => p.1.1) <$> hist))
    as Hdistinct.
  { intros sh -> Hnd Hconf. unfold probed. split.
    - intros Hname Hin. apply Hname.
      apply list_elem_of_fmap in Hin as (p & -> & Hin).
      apply list_elem_of_fmap. by exists p.
    - intros Hep Hin. apply Hep.
      apply list_elem_of_fmap in Hin as (p & Hname & Hin).
      apply list_elem_of_fmap. exists p. split; [|done].
      rewrite Forall_forall in Hconf.
      apply (NoDup_Name_inj eps); [done| |by apply Hconf|done].
      by eapply list_elem_of_lookup_2. }
  destruct (statuses hc !! Name ep) as [st|] eqn:Hst.
  - assert (ShownPending <> if Healthy st then ShownHealthy else ShownFailed)
      as Hne by (by destruct (Healthy st)).
    assert ((if Healthy st then ShownHealthy else ShownFailed) = ShownPending
            <-> Name ep ∉ probed hist) as Hiff.
    { split; [by intros ?|]. intros Hn.
      assert (Some st = None) by (apply Hp; done). done. }
    split_and!; [done|by intros ? [= <-]|by apply Hdistinct].
  - assert (ShownPending = ShownPending <-> Name ep ∉ probed hist) as Hiff.
    { split; [|done]. intros _. by apply Hp. }
    split_and!; [done|done|by apply Hdistinct].
Qed.

(** *** Loading the configuration *)

Lemma defaultField_middle get set v (pre : list Endpoint) e suf :
  defaultField get set v (length pre) (pre ++ e :: suf)
  = pre ++ (if bool_decide (get e = 0) then set v e else e) :: suf.
Proof.
  unfold defaultField. rewrite list_lookup_middle by done.
  case_bool_decide; [|done].
  rewrite insert_app_r_alt by lia. by rewrite Nat.sub_diag.
Qed.

Lemma setDefaultsAt_middle (pre : list Endpoint) e suf :
  setDefaultsAt (pre ++ e :: suf) (length pre) = pre ++ withDefaults e :: suf.
Proof.
  unfold setDefaultsAt. rewrite !defaultField_middle.
  f_equal. f_equal. unfold withDefaults. destruct e as [n u i t x]; simpl.
  repeat case_bool_decide; simpl in *; try done.
Qed.

Lemma setDefaults_loop (pre l : list Endpoint) :
  foldl setDefaultsAt (pre ++ l) (seq (length pre) (length l))
  = pre ++ map withDefaults l.
Proof.
  revert pre. induction l as [|e l IH]; intros pre; [done|].
  simpl. rewrite setDefaultsAt_middle.
  replace (pre ++ withDefaults e :: l) with ((pre ++ [withDefaults e]) ++ l)
    by (by rewrite <- app_assoc).
  replace (S (length pre)) with (length (pre ++ [withDefaults e]))
    by (rewrite length_app; simpl; lia).
  rewrite IH. by rewrite <- app_assoc.
Qed.

Lemma loadEndpoints_eq ReadFile Unmarshal filename :
  loadEndpoints ReadFile Unmarshal filename
  = match ReadFile filename with
    | Err e => Err e
    | Ok data =>
        match Unmarshal data with
        | Err e => Err e
        | Ok parsed => Ok (map withDefaults parsed)
        end
    end.
Proof.
  unfold loadEndpoints. destruct (ReadFile filename) as [data|]; [|done].
  destruct (Unmarshal data) as [parsed|]; [|done].
  f_equal. apply (setDefaults_loop [] parsed).
Qed.

(** C9. [loadEndpoints] fails exactly when [os.ReadFile] or
    [json.Unmarshal] fails, with that error.  Otherwise it returns the
    parsed list, entry by entry and in order, where a zero [Interval] has
    become 5 seconds, a zero [Timeout] 3 seconds and a zero
    [ExpectedStatus] 200, and every other field value, negative durations
    included, is as parsed. *)
Theorem loadEndpoints_defaults ReadFile Unmarshal filename :
  match ReadFile filename with
  | Err e => loadEndpoints ReadFile Unmarshal filename = Err e
  | Ok data =>
      match Unmarshal data with
      | Err e => loadEndpoints ReadFile Unmarshal filename = Err e
      | Ok parsed =>
          exists loaded,
            loadEndpoints ReadFile Unmarshal filename = Ok loaded
            /\ length loaded = length parsed
            /\ forall i e, parsed !! i = Some e ->
               exists e', loaded !! i = Some e'
                 /\ Name e' = Name e /\ URL e' = URL e
                 /\ Interval e' = (if bool_decide (Interval e = 0) then 5 * Second else Interval e)
                 /\ Timeout e' = (if bool_decide (Timeout e = 0) then 3 * Second else Timeout e)
                 /\ ExpectedStatus e'
                    = (if bool_decide (ExpectedStatus e = 0) then 200 else ExpectedStatus e)
      end
  end.
Proof.
  rewrite loadEndpoints_eq. destruct (ReadFile filename) as [data|]; [|done].
  destruct (Unmarshal data) as [parsed|]; [|done].
  eexists. split; [done|]. split; [by rewrite length_map|].
  intros i e Hi. exists (withDefaults e).
  rewrite list_lookup_fmap, Hi. done.
Qed.

Example loadEndpoints_keeps_negative :
  loadEndpoints (fun _ => Ok []) (fun _ => Ok [mkEndpoint "a" "http://a" (-7) 0 0])
    "endpoints.json"
  = Ok [mkEndpoint "a" "http://a" (-7) (3 * Second) 200].
Proof. reflexivity. Qed.

(** *** Startup *)

(** C4, as the specification states it, fails: a configuration whose two
    entries share a name, have no address and have negative interval and
    timeout is not valid, and [main] starts monitoring both entries. *)
Lemma main_starts_invalid_targets :
  let bad := [mkEndpoint "a" "" (-1) (-1) 200; mkEndpoint "a" "" (-1) (-1) 200] in
  ~ valid_targets bad
  /\ main (fun _ => Ok []) (fun _ => Ok bad)
       (fun _ => Err "no such interface") (fun _ : unit => Ok []) (fun _ : unit => true)
       "endpoints.json" ""
     = Started (mkHealthChecker bad (mkClient 100 10 (90 * Second) None (10 * Second)) ∅) bad.
Proof.
  split; [|reflexivity].
  intros [Hall _]. apply Forall_cons in Hall as [(Hi & _) _]. simpl in Hi. lia.
Qed.

(** C4, amended. [main] checks nothing about the entries.  Without a
    configuration file it monitors the default endpoints.  With one, it
    stops in [log.Fatalf] before any goroutine starts exactly when the file
    cannot be read or unmarshalled; otherwise it starts with an empty store
    and one monitor for every parsed entry, in order, the zero-valued
    fields replaced by the defaults and nothing rejected. *)
Theorem main_startup {Interface IP : Type} ReadFile Unmarshal
    (InterfaceByName : string -> result Interface)
    (Addrs : Interface -> result (list (option IP))) isIPv4
    configFile interfaceName :
  let run := main ReadFile Unmarshal InterfaceByName Addrs isIPv4
               configFile interfaceName in
  let started l :=
    exists hc, run = Started hc l /\ endpoints hc = l /\ statuses hc = ∅ in
  if bool_decide (configFile = "") then started defaultEndpoints
  else match ReadFile configFile with
       | Err e => run = Fatal ("Failed to load config: " +:+ e)
       | Ok data =>
           match Unmarshal data with
           | Err e => run = Fatal ("Failed to load config: " +:+ e)
           | Ok parsed => started (map withDefaults parsed)
           end
       end.
Proof.
  simpl. unfold main. rewrite loadEndpoints_eq.
  case_bool_decide as Hc.
  - rewrite bool_decide_eq_false_2 by (by intros []). eauto.
  - rewrite bool_decide_eq_true_2 by done.
    destruct (ReadFile configFile) as [data|]; [|done].
    destruct (Unmarshal data) as [parsed|]; [|done]. eauto.
Qed.

(** *** The scheduler loop *)

Lemma monitorLoop_waiting ep evs hc :
  CtxDone ∉ evs -> exists hc', monitorLoop ep evs hc = Waiting hc'.
Proof.
  revert hc. induction evs as [|[|a t] evs IH]; intros hc Hn; simpl.
  - eauto.
  - exfalso. apply Hn. left.
  - apply IH. intros H. apply Hn. by right.
Qed.

Lemma monitorLoop_tick ep evs hc hc' a t :
  monitorLoop ep evs hc = Waiting hc' ->
  monitorLoop ep (evs ++ [Tick a t]) hc = Waiting (checkEndpoint ep a t hc').
Proof.
  revert hc. induction evs as [|[|a' t'] evs IH]; intros hc; simpl.
  - by intros [= ->].
  - done.
  - apply IH.
Qed.

Lemma monitorLoop_stopped ep evs hc hc' :
  monitorLoop ep evs hc = Stopped hc' -> CtxDone ∈ evs.
Proof.
  revert hc. induction evs as [|[|a t] evs IH]; intros hc; simpl.
  - done.
  - intros _. left.
  - intros H. right. by eapply IH.
Qed.

Lemma checkEndpoint_failure ep a t hc :
  exists st, statuses (checkEndpoint ep a t hc) !! Name ep = Some st
    /\ LastCheck st = t /\ Healthy st = negb (failure ep a).
Proof.
  destruct a; simpl; rewrite lookup_insert_eq; eexists; (split; [done|]); simpl;
    try done.
  split; [done|]. by rewrite negb_involutive.
Qed.

(** C5. For an endpoint with a positive interval, whatever the probes
    answer, the loop of [monitorEndpoint] is still waiting for its next
    event after any run of ticks in which the context was never done; the
    next tick then probes again and records the outcome under the
    endpoint's name, unhealthy when the probe failed.  The loop is over
    only if [ctx.Done()] was selected. *)
Theorem monitorEndpoint_survives_failures ep first now evs hc :
  0 < Interval ep ->
  (CtxDone ∉ evs ->
   exists hc',
     monitorEndpoint ep first now evs hc = Waiting hc'
     /\ forall a t,
        monitorEndpoint ep first now (evs ++ [Tick a t]) hc
        = Waiting (checkEndpoint ep a t hc')
        /\ exists st,
            statuses (checkEndpoint ep a t hc') !! Name ep = Some st
            /\ LastCheck st = t
            /\ Healthy st = negb (failure ep a))
  /\ (forall hc', monitorEndpoint ep first now evs hc = Stopped hc' -> CtxDone ∈ evs).
Proof.
  intros Hpos. unfold monitorEndpoint.
  replace (Interval ep <=? 0) with false by (symmetry; apply Z.leb_gt; lia).
  split.
  - intros Hn.
    destruct (monitorLoop_waiting ep evs (checkEndpoint ep first now hc) Hn) as [hc' Hw].
    exists hc'. split; [done|]. intros a t. split.
    + by apply monitorLoop_tick.
    + apply checkEndpoint_failure.
  - intros hc'. apply monitorLoop_stopped.
Qed.

Lemma monitorEndpoint_survives_failures_witness :
  exists hc',
    monitorEndpoint (mkEndpoint "A" "http://127.0.0.1:9" (100 * Millisecond) (50 * Millisecond) 200)
      (DoErr 1000 "connection refused") 0
      [Tick (DoErr 900 "connection refused") 100; Tick (DoResp 5000 503) 200]
      (mkHealthChecker [] (mkClient 100 10 0 None 0) ∅) = Waiting hc'.
Proof.
  match goal with
  | |- exists _, monitorEndpoint ?e ?f ?n ?evs ?hc = _ =>
      destruct (monitorEndpoint_survives_failures e f n evs hc) as [H _]
  end.
  - reflexivity.
  - destruct H as [hc' [Hw _]].
    + intros Hin. repeat (apply elem_of_cons in Hin as [Hin|Hin]; [discriminate Hin|]).
      by apply elem_of_nil in Hin.
    + exists hc'. exact Hw.
Defined.

End HealthCheckerSpec.

Module PingSpec.
Import HealthChecker PortScanner Ping.

(** C7, as stated, fails for the ICMP strategy: when the read times out
    two seconds after the send, [ping] reports a duration of zero next to
    its error, not the two seconds that elapsed. *)
Lemma ping_timeout_reports_zero :
  ping silent 1 (2 * Second) 0 = (0, Some "read error: i/o timeout")
  /\ since silent = 2 * Second
  /\ fst (ping silent 1 (2 * Second) 0) <> since silent.
Proof. repeat split. discriminate. Qed.

Lemma ping_outcome w seq timeout now :
  match ping w seq timeout now with
  | (rtt, None) => rtt = since w
  | (rtt, Some _) => rtt = 0
  end.
Proof.
  unfold ping, try.
  destruct (ListenPacket w); [|done].
  destruct (Marshal w _); [|done].
  destruct (SetDeadline w _); [|done].
  destruct (WriteTo w _); [|done].
  destruct (ReadFrom w); [|done].
  destruct (ParseMessage w _ _); [|done].
  by case_bool_decide.
Qed.

(** C7, amended. The HTTP probe records the reading of
    [time.Since(start)] as latency whether [client.Do] returned a response
    or an error, and zero when the request could not be built.  [ping]
    returns the time elapsed between the send and the arrival of the reply
    only together with a nil error; with every error it returns zero.  The
    result of the TCP scan holds the port, the open flag and an empty
    banner, and no duration. *)
Theorem latency_by_strategy :
  (forall ep a now hc,
     exists st,
       statuses (checkEndpoint ep a now hc) !! HealthChecker.Name ep = Some st
       /\ Latency st = match a with
                      | NewRequestErr _ => 0
                      | DoErr since _ | DoResp since _ => since
                      end)
  /\ (forall w seq timeout now,
       match ping w seq timeout now with
       | (rtt, None) => rtt = since w
       | (rtt, Some _) => rtt = 0
       end)
  /\ (forall host port timeout net,
       scanPort host port timeout net
       = mkScanResult port
           (negb (is_err (net "tcp" (host +:+ ":" +:+ fmt_d port) timeout))) "").
Proof.
  split; [|split].
  - intros ep a now hc. destruct a; simpl; rewrite lookup_insert_eq; eauto.
  - apply ping_outcome.
  - intros. unfold scanPort. by destruct (net _ _ _).
Qed.

End PingSpec.

Module PortScannerSpec.
Import PortScanner.

(** *** Machine integers *)

Lemma wrap64_in_int64 z : in_int64 (wrap64 z).
Proof.
  unfold in_int64, wrap64, min_int64, max_int64.
  pose proof (Z.mod_pos_bound (z + 2 ^ 63) (2 ^ 64) eq_refl). lia.
Qed.

Lemma wrap64_small z : in_int64 z -> wrap64 z = z.
Proof.
  unfold in_int64, wrap64, min_int64, max_int64. intros H.
  rewrite Z.mod_small; lia.
Qed.

(** *** Lists of workers *)

Lemma all_exited_lookup pool i w :
  all_exited pool = true -> pool !! i = Some w -> w = Exited.
Proof.
  unfold all_exited. rewrite forallb_forall. intros Hall Hi.
  apply list_elem_of_lookup_2, list_elem_of_In, Hall in Hi. by destruct w.
Qed.

Lemma not_all_exited pool :
  all_exited pool = false -> exists i w, pool !! i = Some w /\ w <> Exited.
Proof.
  induction pool as [|a pool IH]; simpl; [done|].
  destruct a; simpl; try (intros _; by eexists 0%nat, _).
  intros H. destruct (IH H) as (i & w & Hi & Hw). by exists (S i), w.
Qed.

Lemma upto_snoc a b : a <= b -> upto a (b + 1) = upto a b ++ [b].
Proof.
  intros H. unfold upto.
  replace (Z.to_nat (b + 1 - a)) with (Z.to_nat (b - a) + 1)%nat by lia.
  rewrite seq_app, map_app. simpl. do 2 f_equal. lia.
Qed.

Lemma upto_nil a b : b <= a -> upto a b = [].
Proof. intros H. unfold upto. by replace (Z.to_nat (b - a)) with 0%nat by lia. Qed.

Lemma length_upto a b : length (upto a b) = Z.to_nat (b - a).
Proof. unfold upto. by rewrite length_map, length_seq. Qed.

Lemma NoDup_upto a b : NoDup (upto a b).
Proof.
  unfold upto. apply NoDup_fmap_2; [|apply NoDup_seq].
  intros x y. lia.
Qed.

Lemma scanPort_open host p timeout net :
  Open (scanPort host p timeout net) = true ->
  scanPort host p timeout net = mkScanResult p true "".
Proof. unfold scanPort. by destruct (net _ _ _). Qed.

Lemma successes_snoc log i p o :
  successes (log ++ [(i, p, o)])
  = successes log ++ (if o then [mkScanResult p true ""] else []).
Proof.
  unfold successes. rewrite filter_app, map_app. f_equal.
  by destruct o.
Qed.

Lemma attempted_snoc log i p o : attempted (log ++ [(i, p, o)]) = attempted log ++ [p].
Proof. unfold attempted. by rewrite map_app. Qed.

Lemma length_successes log : (length (successes log) <= length (attempted log))%nat.
Proof.
  unfold successes, attempted. rewrite !length_map. apply length_filter.
Qed.

Lemma sending_insert pool i w0 w :
  pool !! i = Some w0 ->
  option_list (match w0 with Sending r => Some r | _ => None end)
    ++ sending (<[i := w]> pool)
  ≡ₚ option_list (match w with Sending r => Some r | _ => None end) ++ sending pool.
Proof.
  apply (omap_insert_perm (fun w => match w with Sending r => Some r | _ => None end)).
Qed.

Lemma dialing_insert pool i w0 w :
  pool !! i = Some w0 ->
  option_list (match w0 with Dialing p => Some p | _ => None end)
    ++ dialing (<[i := w]> pool)
  ≡ₚ option_list (match w with Dialing p => Some p | _ => None end) ++ dialing pool.
Proof.
  apply (omap_insert_perm (fun w => match w with Dialing p => Some p | _ => None end)).
Qed.

(** Brings every element consed inside a concatenation to the front. *)
Ltac perm_front :=
  rewrite <- ?app_assoc; simpl; rewrite <- ?Permutation_middle, ?app_nil_r.

(** *** Invariants of the pool *)

(** Splits the enabling condition of a step and names the new state. *)
Ltac step_inversion H :=
  unfold step, set_worker in H;
  repeat match type of H with
         | context [match ?x with _ => _ end] =>
             let E := fresh "E" in destruct x eqn:E; try discriminate H
         end;
  injection H as <-;
  repeat match goal with
         | E : _ && _ = true |- _ => apply andb_true_iff in E as [? E]
         | E : negb _ = true |- _ => apply negb_true_iff in E
         | E : (_ <=? _) = true |- _ => apply Z.leb_le in E
         | E : (_ <=? _) = false |- _ => apply Z.leb_gt in E
         | E : (_ <? _)%nat = true |- _ => apply Nat.ltb_lt in E
         end;
  simpl in *.

Section Invariants.

Variables (host : string) (startPort endPort : Z) (timeout : Z) (workers : Z).

Abbreviation W := (Z.to_nat workers).
Abbreviation step := (step host endPort timeout).
Abbreviation run := (run host endPort timeout).
Abbreviation init := (init startPort workers).

Lemma pool_inv_init : in_int64 startPort -> pool_inv W endPort init.
Proof.
  intros Hs. unfold pool_inv; simpl. rewrite length_replicate.
  split_and!; try done.
  - intros [i Hi]. apply lookup_replicate in Hi as [? _]. done.
  - unfold sending. by rewrite omap_replicate_None.
Qed.

Lemma pool_inv_step a s s' :
  pool_inv W endPort s -> step a s = Some s' -> pool_inv W endPort s'.
Proof.
  intros (Hlen & Hport & Hclosed & Hexit & Hres & Hret & Hperm) Hstep.
  unfold pool_inv. destruct a; step_inversion Hstep;
    rewrite ?length_insert, ?successes_snoc.
  - (* Produce *)
    split_and!; try done; try apply wrap64_in_int64; try congruence.
    intros [i Hi]. destruct Hexit as [Hc _]; [eauto|]; congruence.
  - (* ClosePorts *)
    split_and!; try done; try lia.
    intros [i Hi]. destruct Hexit as [Hc _]; [eauto|]; congruence.
  - (* Recv *)
    split_and!; try done.
    + intros [j Hj]. apply list_lookup_insert_Some in Hj as [(_ & ? & _)|[_ Hj]]; [done|].
      destruct Hexit as [_ Hc]; [eauto|]. done.
    + intros Hrc. pose proof (all_exited_lookup _ _ _ (Hres Hrc) E). done.
    + pose proof (sending_insert _ _ _ (Dialing z) E) as Hp. simpl in Hp.
      by rewrite Hp.
  - (* Dial, port open *)
    split_and!; try done.
    + intros [j Hj]. apply list_lookup_insert_Some in Hj as [(_ & ? & _)|[_ Hj]]; [done|].
      apply Hexit. eauto.
    + intros Hrc. pose proof (all_exited_lookup _ _ _ (Hres Hrc) E). done.
    + pose proof (sending_insert _ _ _ (Sending (scanPort host port0 timeout net)) E) as Hp.
      simpl in Hp. rewrite Hp, (scanPort_open _ _ _ _ E1), <- Hperm.
      by perm_front.
  - (* Dial, port closed *)
    split_and!; try done.
    + intros [j Hj]. apply list_lookup_insert_Some in Hj as [(_ & ? & _)|[_ Hj]]; [done|].
      apply Hexit. eauto.
    + intros Hrc. pose proof (all_exited_lookup _ _ _ (Hres Hrc) E). done.
    + pose proof (sending_insert _ _ _ Receiving E) as Hp. simpl in Hp.
      by rewrite Hp, app_nil_r.
  - (* Publish *)
    split_and!; try done.
    + intros [j Hj]. apply list_lookup_insert_Some in Hj as [(_ & ? & _)|[_ Hj]]; [done|].
      apply Hexit. eauto.
    + intros Hrc. pose proof (all_exited_lookup _ _ _ (Hres Hrc) E). done.
    + intros Hr. destruct (Hret Hr) as [Hrc _].
      pose proof (all_exited_lookup _ _ _ (Hres Hrc) E). done.
    + pose proof (sending_insert _ _ _ Receiving E) as Hp. simpl in Hp.
      rewrite <- Hperm, <- Hp. by perm_front.
  - (* Exit *)
    split_and!; try done.
    + intros Hrc. pose proof (all_exited_lookup _ _ _ (Hres Hrc) E). done.
    + pose proof (sending_insert _ _ _ Exited E) as Hp. simpl in Hp.
      by rewrite Hp.
  - (* CloseResults *)
    split_and!; try done.
    intros Hr. by destruct (Hret Hr).
  - (* Collect *)
    split_and!; try done.
    rewrite <- Hperm. by perm_front.
  - (* Return *)
    split_and!; try done.
Qed.

Lemma range_inv_init : range_inv startPort endPort init.
Proof.
  unfold range_inv; simpl. split; [lia|].
  unfold dialing. rewrite omap_replicate_None by done.
  by rewrite upto_nil by lia.
Qed.

Lemma range_inv_step a s s' :
  min_int64 <= startPort -> endPort < max_int64 ->
  range_inv startPort endPort s -> step a s = Some s' ->
  range_inv startPort endPort s'.
Proof.
  intros Hmin Hmax [Hport Hperm] Hstep.
  unfold range_inv. destruct a; step_inversion Hstep; rewrite ?attempted_snoc;
    try (split; [done|]).
  - (* Produce *)
    rewrite wrap64_small by (unfold in_int64; lia).
    split; [lia|]. rewrite upto_snoc by lia. rewrite <- Hperm. by perm_front.
  - (* ClosePorts *) done.
  - (* Recv *)
    pose proof (dialing_insert _ _ _ (Dialing z) E) as Hp. simpl in Hp.
    rewrite Hp, <- Hperm. by perm_front.
  - (* Dial, port open *)
    pose proof (dialing_insert _ _ _ (Sending (scanPort host port0 timeout net)) E) as Hp.
    simpl in Hp. rewrite <- Hperm, <- Hp. by perm_front.
  - (* Dial, port closed *)
    pose proof (dialing_insert _ _ _ Receiving E) as Hp.
    simpl in Hp. rewrite <- Hperm, <- Hp. by perm_front.
  - (* Publish *)
    pose proof (dialing_insert _ _ _ Receiving E) as Hp. simpl in Hp. by rewrite Hp.
  - (* Exit *)
    pose proof (dialing_insert _ _ _ Exited E) as Hp. simpl in Hp. by rewrite Hp.
  - (* CloseResults *) done.
  - (* Collect *) done.
  - (* Return *) done.
Qed.

(** Every step uses up fuel. *)
Lemma fuel_step a s s' :
  min_int64 <= startPort -> endPort < max_int64 ->
  range_inv startPort endPort s -> step a s = Some s' ->
  (fuel endPort s' < fuel endPort s)%nat.
Proof.
  intros Hmin Hmax [Hport _] Hstep.
  unfold fuel. destruct a; step_inversion Hstep;
    rewrite ?length_app; simpl;
    try (match goal with
         | E : pool s !! _ = Some ?w0 |- context [<[_ := ?w]> (pool s)] =>
             pose proof (sum_list_insert weight _ _ _ w E); simpl in *
         end);
    repeat match goal with
           | H : ?b = _ |- context [if ?b then _ else _] => rewrite H
           end;
    try lia.
  rewrite wrap64_small by (unfold in_int64; lia). lia.
Qed.

(** *** Runs *)

Lemma pool_inv_run sched s s' :
  pool_inv W endPort s -> run sched s = Some s' -> pool_inv W endPort s'.
Proof.
  revert s. induction sched as [|a sched IH]; intros s Hinv; simpl.
  - by intros [= <-].
  - destruct (step a s) as [s1|] eqn:Hs; [|done].
    apply IH. by eapply pool_inv_step.
Qed.

Lemma range_inv_run sched s s' :
  min_int64 <= startPort -> endPort < max_int64 ->
  range_inv startPort endPort s -> run sched s = Some s' ->
  range_inv startPort endPort s'.
Proof.
  intros Hmin Hmax. revert s. induction sched as [|a sched IH]; intros s Hinv; simpl.
  - by intros [= <-].
  - destruct (step a s) as [s1|] eqn:Hs; [|done].
    apply IH. by eapply range_inv_step.
Qed.

Lemma fuel_run sched s s' :
  min_int64 <= startPort -> endPort < max_int64 ->
  range_inv startPort endPort s -> run sched s = Some s' ->
  (length sched + fuel endPort s' <= fuel endPort s)%nat.
Proof.
  intros Hmin Hmax. revert s. induction sched as [|a sched IH]; intros s Hinv; simpl.
  - intros [= <-]. lia.
  - destruct (step a s) as [s1|] eqn:Hs; [|done]. intros Hrun.
    pose proof (fuel_step _ _ _ Hmin Hmax Hinv Hs).
    pose proof (IH s1 (range_inv_step _ _ _ Hmin Hmax Hinv Hs) Hrun). lia.
Qed.

(** A call that has not returned can always take a step: no deadlock. *)
Lemma progress s : returned s = false -> exists a s', step a s = Some s'.
Proof.
  intros Hret.
  destruct (results s) as [|r rest] eqn:Hres.
  2: { exists Collect. eexists. unfold PortScanner.step. by rewrite Hres, Hret. }
  destruct (results_closed s) eqn:Hrc.
  { exists Return. eexists. unfold PortScanner.step. by rewrite Hres, Hrc, Hret. }
  destruct (all_exited (pool s)) eqn:Hall.
  { exists CloseResults. eexists. unfold PortScanner.step. by rewrite Hall, Hrc. }
  apply not_all_exited in Hall as (i & w & Hi & Hw).
  destruct w as [|p|r|]; [| | |done].
  - destruct (ports s) as [|p rest] eqn:Hports.
    + destruct (ports_closed s) eqn:Hpc.
      * exists (Exit i). eexists. unfold PortScanner.step. by rewrite Hi, Hports, Hpc.
      * destruct (port s <=? endPort) eqn:Hle.
        -- exists Produce. eexists. unfold PortScanner.step.
           by rewrite Hpc, Hle, Hports.
        -- exists ClosePorts. eexists. unfold PortScanner.step.
           by rewrite Hpc, Hle.
    + exists (Recv i). eexists. unfold PortScanner.step. by rewrite Hi, Hports.
  - exists (Dial i (fun _ _ _ => Err "connection refused")). eexists.
    unfold PortScanner.step. by rewrite Hi.
  - exists (Publish i). eexists. unfold PortScanner.step. by rewrite Hi, Hres.
Qed.

(** Once the call has returned, every goroutine it started is over. *)
Lemma returned_stuck s :
  (0 < W)%nat -> pool_inv W endPort s -> returned s = true ->
  stuck host endPort timeout s.
Proof.
  intros HW (Hlen & _ & _ & Hexit & Hres & Hret & _) Hr.
  destruct (Hret Hr) as [Hrc Hempty]. pose proof (Hres Hrc) as Hall.
  destruct (pool s !! 0%nat) as [w0|] eqn:H0;
    [|apply lookup_ge_None in H0; lia].
  pose proof (all_exited_lookup _ _ _ Hall H0) as ->.
  destruct Hexit as [Hpc Hports]; [eauto|].
  intros a. unfold PortScanner.step.
  destruct a; rewrite ?Hpc, ?Hports, ?Hrc, ?Hr, ?Hempty, ?Hall; simpl; try done.
  all: destruct (pool s !! i) as [w|] eqn:Hi; [|done];
       pose proof (all_exited_lookup _ _ _ Hall Hi) as ->; done.
Qed.

(** From any state, the call can be run to its return. *)
Lemma run_to_return s :
  min_int64 <= startPort -> endPort < max_int64 ->
  range_inv startPort endPort s ->
  exists sched s', run sched s = Some s' /\ returned s' = true.
Proof.
  intros Hmin Hmax.
  remember (fuel endPort s) as n eqn:Hn.
  revert s Hn. induction (lt_wf n) as [n _ IH]. intros s -> Hinv.
  destruct (returned s) eqn:Hr.
  - by exists [], s.
  - destruct (progress s Hr) as (a & s1 & Hs).
    pose proof (fuel_step _ _ _ Hmin Hmax Hinv Hs) as Hlt.
    destruct (IH _ Hlt s1 eq_refl (range_inv_step _ _ _ Hmin Hmax Hinv Hs))
      as (sched & s' & Hrun & Hret).
    exists (a :: sched), s'. simpl. by rewrite Hs.
Qed.

(** What holds when the call returns, for a range that cannot overflow. *)
Lemma returned_all_attempted s :
  (0 < W)%nat -> pool_inv W endPort s -> range_inv startPort endPort s ->
  returned s = true ->
  attempted (attempts s) ≡ₚ jobs startPort endPort.
Proof.
  intros HW (Hlen & _ & Hclosed & Hexit & Hres & Hret & _) [Hport Hperm] Hr.
  destruct (Hret Hr) as [Hrc Hempty]. pose proof (Hres Hrc) as Hall.
  destruct (pool s !! 0%nat) as [w0|] eqn:H0;
    [|apply lookup_ge_None in H0; lia].
  pose proof (all_exited_lookup _ _ _ Hall H0) as ->.
  destruct Hexit as [Hpc Hports]; [eauto|].
  specialize (Hclosed Hpc).
  assert (dialing (pool s) = []) as Hd.
  { clear -Hall. induction (pool s) as [|w l IHl]; [done|].
    simpl in Hall. apply andb_true_iff in Hall as [Hw Hl].
    destruct w; try done. by apply IHl. }
  rewrite Hd, Hports, !app_nil_r in Hperm. rewrite Hperm.
  unfold jobs. destruct (decide (startPort <= endPort + 1)).
  - by replace (port s) with (endPort + 1) by lia.
  - rewrite !upto_nil by lia. done.
Qed.

Lemma elem_of_upto a b x : x ∈ upto a b <-> a <= x < b.
Proof.
  unfold upto. rewrite list_elem_of_fmap. split.
  - intros (k & -> & Hk). apply elem_of_seq in Hk. lia.
  - intros Hx. exists (Z.to_nat (x - a)). split; [lia|]. apply elem_of_seq. lia.
Qed.

Lemma elem_of_successes log r :
  r ∈ successes log -> Open r = true /\ Port r ∈ attempted log.
Proof.
  unfold successes, attempted. rewrite list_elem_of_fmap.
  intros (e & -> & He). apply list_elem_of_filter in He as [_ He].
  split; [done|]. simpl. apply list_elem_of_fmap. by exists e.
Qed.

Lemma reachable_pool_inv sched s :
  in_int64 startPort -> run sched init = Some s -> pool_inv W endPort s.
Proof. intros Hs. apply pool_inv_run. by apply pool_inv_init. Qed.

Lemma reachable_range_inv sched s :
  in_int64 startPort -> endPort < max_int64 -> run sched init = Some s ->
  range_inv startPort endPort s.
Proof.
  intros [Hs _] He. apply range_inv_run; [done..|]. apply range_inv_init.
Qed.

(** With [endPort] the largest [int], [port <= endPort] never fails: the
    producer never closes [ports] and the call never returns. *)
Lemma max_port_not_returned s :
  (0 < W)%nat -> endPort = max_int64 -> pool_inv W endPort s -> returned s = false.
Proof.
  intros HW -> (Hlen & [_ Hport] & Hclosed & Hexit & Hres & Hret & _).
  destruct (returned s) eqn:Hr; [|done]. exfalso.
  destruct (Hret eq_refl) as [Hrc _]. pose proof (Hres Hrc) as Hall.
  destruct (pool s !! 0%nat) as [w0|] eqn:H0;
    [|apply lookup_ge_None in H0; lia].
  pose proof (all_exited_lookup _ _ _ Hall H0) as ->.
  destruct Hexit as [Hpc _]; [eauto|]. specialize (Hclosed Hpc). lia.
Qed.

(** The worker pool below the end of the [int] range. In a call of
    [scanPorts] with at least one worker, at every moment
    the results collected, queued in [results] or about to be sent are
    exactly the successful dials made so far.  When the call has returned,
    the dials made are the ports of the range, each dialled once by one
    worker; the returned slice holds exactly the successful ones, every
    element of it is an open port of the range, and its length is at most
    the number of jobs.  While the loop variable cannot overflow, no port
    has been dialled twice and only ports of the range have been dialled,
    at every moment. *)
Theorem scanPorts_attempts_each_job_once sched s :
  in_int64 startPort -> in_int64 endPort -> 1 <= workers ->
  run sched init = Some s ->
  openPorts s ++ results s ++ sending (pool s) ≡ₚ successes (attempts s)
  /\ (returned s = true ->
      attempted (attempts s) ≡ₚ jobs startPort endPort
      /\ NoDup (attempted (attempts s))
      /\ openPorts s ≡ₚ successes (attempts s)
      /\ Forall (fun r => Open r = true /\ Port r ∈ jobs startPort endPort) (openPorts s)
      /\ (length (openPorts s) <= Z.to_nat (endPort - startPort + 1))%nat)
  /\ (endPort < max_int64 ->
      NoDup (attempted (attempts s))
      /\ attempted (attempts s) ⊆ jobs startPort endPort).
Proof.
  intros Hs He HW Hrun.
  pose proof (reachable_pool_inv _ _ Hs Hrun) as Hinv.
  assert (0 < W)%nat as HW' by lia.
  split; [apply Hinv|]. split.
  - intros Hr.
    destruct (decide (endPort = max_int64)) as [Hmax|Hmax].
    { by rewrite (max_port_not_returned s HW' Hmax Hinv) in Hr. }
    assert (endPort < max_int64) as Hlt by (destruct He; lia).
    pose proof (reachable_range_inv _ _ Hs Hlt Hrun) as Hrange.
    pose proof (returned_all_attempted s HW' Hinv Hrange Hr) as Hall.
    destruct Hinv as (_ & _ & _ & _ & Hres & Hret & Hperm).
    destruct (Hret Hr) as [Hrc Hempty]. pose proof (Hres Hrc) as Hex.
    assert (sending (pool s) = []) as Hsend.
    { clear -Hex. induction (pool s) as [|w l IHl]; [done|].
      simpl in Hex. apply andb_true_iff in Hex as [Hw Hl].
      destruct w; try done. by apply IHl. }
    rewrite Hempty, Hsend, !app_nil_r in Hperm.
    split_and!; try done.
    + rewrite Hall. apply NoDup_upto.
    + apply Forall_forall. intros r Hin. rewrite Hperm in Hin.
      apply elem_of_successes in Hin as [Ho Hp]. by rewrite <- Hall.
    + rewrite Hperm. etrans; [apply length_successes|].
      rewrite Hall. unfold jobs. rewrite length_upto. lia.
  - intros Hlt.
    destruct (reachable_range_inv _ _ Hs Hlt Hrun) as [Hport Hp].
    pose proof (NoDup_upto startPort (port s)) as Hnd. rewrite <- Hp in Hnd.
    apply NoDup_app in Hnd as [Hnd _]. split; [done|].
    intros x Hx. apply elem_of_upto.
    assert (x ∈ upto startPort (port s)) as Hin
      by (rewrite <- Hp; apply elem_of_app; by left).
    apply elem_of_upto in Hin. lia.
Qed.

(** C6 fails for a range that ends at the largest [int]: there the call
    never returns, and some goroutine can always take another step. *)
Theorem scanPorts_max_port_never_returns sched s :
  in_int64 startPort -> endPort = max_int64 -> 1 <= workers ->
  run sched init = Some s ->
  returned s = false /\ exists a s', step a s = Some s'.
Proof.
  intros Hs He HW Hrun.
  assert (returned s = false) as Hr.
  { apply max_port_not_returned; [lia|done|]. by eapply reachable_pool_inv. }
  split; [done|]. by apply progress.
Qed.

(** For a range that ends below the largest [int] and at least one
    worker, [scanPorts] terminates: every schedule is finite, of length at
    most [7 N + W + 3]; a state that has not returned has a step to take;
    from every state the call can be run to its return; and at the return
    every goroutine is over, the whole range has been dialled, and an empty
    range has given an empty slice. *)
Lemma scanPorts_terminates sched s :
  in_int64 startPort -> endPort < max_int64 -> 1 <= workers ->
  run sched init = Some s ->
  (length sched <= 7 * Z.to_nat (endPort - startPort + 1) + W + 3)%nat
  /\ (returned s = false -> exists a s', step a s = Some s')
  /\ (exists sched' s', run sched' s = Some s' /\ returned s' = true)
  /\ (returned s = true ->
      stuck host endPort timeout s
      /\ attempted (attempts s) ≡ₚ jobs startPort endPort
      /\ (endPort < startPort -> openPorts s = [])).
Proof.
  intros Hs Hlt HW Hrun.
  pose proof (reachable_pool_inv _ _ Hs Hrun) as Hinv.
  pose proof (reachable_range_inv _ _ Hs Hlt Hrun) as Hrange.
  assert (0 < W)%nat as HW' by lia.
  split_and!.
  - pose proof (fuel_run _ _ _ (proj1 Hs) Hlt range_inv_init Hrun) as Hf.
    unfold fuel in Hf at 2. simpl in Hf.
    rewrite sum_list_replicate in Hf. simpl in Hf. lia.
  - apply progress.
  - apply run_to_return; [apply Hs|done..].
  - intros Hr. split_and!.
    + by apply returned_stuck.
    + by apply returned_all_attempted.
    + intros Hempty.
      pose proof (returned_all_attempted s HW' Hinv Hrange Hr) as Hall.
      unfold jobs in Hall. rewrite upto_nil in Hall by lia.
      apply Permutation_nil_r in Hall.
      destruct Hinv as (_ & _ & _ & _ & _ & _ & Hperm).
      unfold attempted in Hall. apply fmap_nil_inv in Hall.
      rewrite Hall in Hperm. apply Permutation_nil_r in Hperm.
      by apply app_eq_nil in Hperm as [? _].
Qed.

End Invariants.

(** *** The range that ends at the largest [int] *)







Lemma scanPorts_attempts_each_job_once_witness :
  exists s,
    run "localhost" 9 (500 * Millisecond) schedule_7_9 (init 7 2) = Some s
    /\ returned s = true
    /\ attempted (attempts s) ≡ₚ [7; 8; 9]
    /\ map Port (openPorts s) = [9].
Proof.
  eexists. split; [vm_compute; reflexivity|].
  split; [reflexivity|]. split; [|reflexivity].
  refine (proj1 (proj1 (proj2 (scanPorts_attempts_each_job_once
            "localhost" 7 9 (500 * Millisecond) 2 schedule_7_9 _ _ _ _ _)) _)).
  - split; discriminate.
  - split; discriminate.
  - discriminate.
  - vm_compute; reflexivity.
  - reflexivity.
Defined.

Lemma scanPorts_max_port_never_returns_witness :
  exists s,
    run "localhost" max_int64 (500 * Millisecond) schedule_max (init max_int64 1) = Some s
    /\ attempted (attempts s) = [max_int64; min_int64]
    /\ returned s = false.
Proof.
  eexists. split; [vm_compute; reflexivity|]. split; [reflexivity|].
  refine (proj1 (scanPorts_max_port_never_returns
            "localhost" max_int64 max_int64 (500 * Millisecond) 1 schedule_max _ _ _ _ _)).
  - split; discriminate.
  - reflexivity.
  - discriminate.
  - vm_compute; reflexivity.
Defined.

End PortScannerSpec.

Module ResultStoreSpec.
Import HealthChecker ResultStore.

Ltac step_inversion H :=
  unfold step in H;
  repeat match type of H with
         | context [match ?x with _ => _ end] =>
             let E := fresh "E" in destruct x eqn:E; try discriminate H
         end;
  injection H as <-;
  repeat match goal with
         | E : _ && _ = true |- _ => apply andb_true_iff in E as [? E]
         | E : negb _ = true |- _ => apply negb_true_iff in E
         | E : (_ =? _)%nat = true |- _ => apply Nat.eqb_eq in E
         end;
  simpl in *.

Lemma sound_mono puts c o : sound puts o -> sound (puts ++ [c]) o.
Proof.
  destruct o as [[st|]|]; simpl; try done.
  intros (c' & Hin & ->). exists c'. split; [|done]. apply elem_of_app. by left.
Qed.

Lemma store_inv_init eps nw nr : store_inv (init eps nw nr).
Proof.
  unfold store_inv; simpl. split_and!; try done.
  - induction nw as [|n IH]; simpl; [done|]. by rewrite IH.
  - induction nr as [|n IH]; simpl; [done|]. by rewrite IH.
  - intros j seen Hj. apply lookup_replicate in Hj as [? _]. done.
Qed.

Lemma store_inv_step a s s' : store_inv s -> step a s = Some s' -> store_inv s'.
Proof.
  intros (Hw & Hr & Hex & Htorn & Hwhole & Hseen & Hsnap) Hstep.
  unfold store_inv. destruct a; step_inversion Hstep.
  - (* Lock *)
    pose proof (sum_list_insert in_update _ _ _ (Locked c) E) as Hs. simpl in Hs.
    rewrite H in Hw. split_and!; try done; try lia.
    intros k Hk. destruct (Htorn k Hk) as (i' & c' & Hi' & Hc').
    exists i', c'. split; [|done]. rewrite list_lookup_insert_ne; [done|congruence].
  - (* StoreBegin *)
    pose proof (sum_list_insert in_update _ _ _ (Storing c) E) as Hs. simpl in Hs.
    split_and!; try done; try lia.
    + intros k Hk. destruct (decide (k = Name (ep c))) as [->|Hne].
      * exists i, c. split; [|done]. apply list_lookup_insert_eq. by eapply lookup_lt_Some.
      * rewrite lookup_insert_ne in Hk by done.
        destruct (Htorn k Hk) as (i' & c' & Hi' & Hc').
        exists i', c'. split; [|done]. rewrite list_lookup_insert_ne; [done|congruence].
    + intros k st Hk. destruct (decide (k = Name (ep c))) as [->|Hne].
      * by rewrite lookup_insert_eq in Hk.
      * rewrite lookup_insert_ne in Hk by done. eauto.
  - (* StoreEnd *)
    pose proof (sum_list_insert in_update _ _ _ Stored E) as Hs. simpl in Hs.
    split_and!; try done; try lia.
    + intros k Hk. destruct (decide (k = Name (ep c))) as [->|Hne].
      { by rewrite lookup_insert_eq in Hk. }
      rewrite lookup_insert_ne in Hk by done.
      destruct (Htorn k Hk) as (i' & c' & Hi' & Hc'). exfalso.
      assert (i <> i') as Hii by (intros ->; congruence).
      pose proof (sum_list_insert in_update _ _ _ Outside E) as Hs'. simpl in Hs'.
      assert (<[i := Outside]> (writers s) !! i' = Some (Storing c')) as Hj
        by (by rewrite list_lookup_insert_ne).
      pose proof (sum_list_lookup in_update _ _ _ Hj) as Hge. simpl in Hge.
      destruct (writing (mu s)); lia.
    + intros k st Hk. destruct (decide (k = Name (ep c))) as [->|Hne].
      * rewrite lookup_insert_eq in Hk. injection Hk as <-.
        exists c. split; [|done]. apply elem_of_app. right. by apply list_elem_of_singleton.
      * rewrite lookup_insert_ne in Hk by done.
        destruct (Hwhole k st Hk) as (c' & Hin & ->).
        exists c'. split; [|done]. apply elem_of_app. by left.
    + intros j seen Hj. eapply Forall_impl; [by eapply Hseen|].
      intros o. apply sound_mono.
    + eapply Forall_impl; [done|]. intros snap Hsn.
      eapply Forall_impl; [done|]. intros o. apply sound_mono.
  - (* Unlock *)
    pose proof (sum_list_insert in_update _ _ _ Outside E) as Hs. simpl in Hs.
    pose proof (sum_list_lookup in_update _ _ _ E) as Hge. simpl in Hge.
    split_and!; try done.
    + destruct (writing (mu s)); lia.
    + intros k Hk. destruct (Htorn k Hk) as (i' & c' & Hi' & Hc').
      exists i', c'. split; [|done]. rewrite list_lookup_insert_ne; [done|congruence].
  - (* RLock *)
    pose proof (sum_list_insert in_print _ _ _ (Looping []) E) as Hs. simpl in Hs.
    rewrite E1 in Hw. split_and!; try done; try lia.
    intros j' seen Hj'.
    apply list_lookup_insert_Some in Hj' as [(_ & [= <-] & _)|[_ Hj']]; [done|eauto].
  - (* Lookup *)
    pose proof (sum_list_insert in_print _ _ _
                  (Looping (seen ++ [statuses s !! Name e])) E) as Hs.
    simpl in Hs.
    split_and!; try done; try lia.
    intros j' seen' Hj'.
    apply list_lookup_insert_Some in Hj' as [(_ & [= <-] & _)|[_ Hj']]; [|eauto].
    apply Forall_app. split; [eauto|]. apply Forall_singleton.
    destruct (statuses s !! Name e) as [[st|]|] eqn:Hk; simpl; [eauto| |done].
    destruct (Htorn _ Hk) as (i' & c' & Hi' & _).
    pose proof (sum_list_lookup in_update _ _ _ Hi') as Hge. simpl in Hge.
    pose proof (sum_list_lookup in_print _ _ _ E) as Hge'. simpl in Hge'.
    destruct (writing (mu s)); [|lia]. specialize (Hex eq_refl). lia.
  - (* RUnlock *)
    pose proof (sum_list_insert in_print _ _ _ Away E) as Hs. simpl in Hs.
    split_and!; try done; try lia.
    + intros Hwr. specialize (Hex Hwr). lia.
    + intros j' seen' Hj'.
      apply list_lookup_insert_Some in Hj' as [(_ & ? & _)|[_ Hj']]; [done|eauto].
    + apply Forall_app. split; [done|]. apply Forall_singleton. eauto.
Qed.

Lemma store_inv_run sched s s' : store_inv s -> run sched s = Some s' -> store_inv s'.
Proof.
  revert s. induction sched as [|a sched IH]; intros s Hinv; simpl.
  - by intros [= <-].
  - destruct (step a s) as [s1|] eqn:Hs; [|done].
    apply IH. by eapply store_inv_step.
Qed.

Lemma observed_sound s : store_inv s -> Forall (sound (puts s)) (observed s).
Proof.
  intros (_ & _ & _ & _ & _ & Hseen & Hsnap). unfold observed.
  apply Forall_app. split.
  - apply Forall_concat. done.
  - apply Forall_concat. apply Forall_forall. intros seen Hin.
    apply list_elem_of_omap in Hin as (r & Hr & Hs).
    destruct r as [|seen']; [done|]. injection Hs as ->.
    apply list_elem_of_lookup in Hr as [j Hj]. eauto.
Qed.

Lemma store_exclusion s i w j seen :
  store_inv s -> writers s !! i = Some w -> w <> Outside ->
  readers s !! j = Some (Looping seen) -> False.
Proof.
  intros (Hw & Hr & Hex & _) Hi Hne Hj.
  pose proof (sum_list_lookup in_update _ _ _ Hi) as Hge.
  pose proof (sum_list_lookup in_print _ _ _ Hj) as Hge'. simpl in Hge'.
  destruct w; [done|simpl in Hge..];
    (destruct (writing (mu s)); [specialize (Hex eq_refl)|]; lia).
Qed.

Lemma step_mutation a s s' :
  step a s = Some s' ->
  statuses s' = statuses s
  \/ exists i c,
      (a = StoreBegin i /\ writers s !! i = Some (Locked c)
       /\ statuses s' = <[Name (ep c) := Torn]> (statuses s))
      \/ (a = StoreEnd i /\ writers s !! i = Some (Storing c)
          /\ statuses s' = <[Name (ep c) := Whole (allocated c)]> (statuses s)).
Proof.
  intros Hstep. destruct a; step_inversion Hstep; eauto 10.
Qed.

(** An uncontended call of [updateStatus] runs to its end and leaves the
    store as the sequential [HealthChecker.updateStatus] does. *)
Lemma put_runs s i c cl :
  writers s !! i = Some Outside -> mu s = mkRWMutex false 0 ->
  exists s',
    run (put i c) s = Some s'
    /\ writers s' = writers s /\ mu s' = mu s /\ readers s' = readers s
    /\ statuses s' = <[Name (ep c) := Whole (allocated c)]> (statuses s)
    /\ complete (statuses s')
       = HealthChecker.statuses
           (updateStatus (ep c) (healthy c) (latency c) (errMsg c) (now c)
              (mkHealthChecker (endpoints s) cl (complete (statuses s)))).
Proof.
  intros Hi Hmu. pose proof (lookup_lt_Some _ _ _ Hi) as Hlt.
  eexists. split.
  { unfold put, run, step; simpl. rewrite Hi, Hmu; simpl.
    do 3 (rewrite list_lookup_insert_eq by (by rewrite ?length_insert); simpl).
    reflexivity. }
  simpl. rewrite !list_insert_insert_eq, insert_insert_eq.
  split_and!; try done.
  - by apply list_insert_id.
  - unfold complete. by erewrite omap_insert_Some.
Qed.

(** C8. In every state the checker's goroutines can reach, whatever the
    interleaving: no reader holds the read lock while a writer is inside
    [updateStatus]; every entry a reader has looked up was either absent
    or the complete struct allocated by one finished call of
    [updateStatus], never a torn slot; the only steps that change the
    store are the two halves of the map assignment of [updateStatus], which
    touch the one key of the call; and a call of [updateStatus] that finds
    the lock free replaces that entry as a whole. *)
Theorem store_reads_never_torn eps nw nr sched s :
  run sched (init eps nw nr) = Some s ->
  Forall (sound (puts s)) (observed s)
  /\ (forall i w j seen,
       writers s !! i = Some w -> readers s !! j = Some (Looping seen) -> w = Outside)
  /\ (forall a s', step a s = Some s' ->
       statuses s' = statuses s
       \/ exists i c,
           (a = StoreBegin i /\ writers s !! i = Some (Locked c)
            /\ statuses s' = <[Name (ep c) := Torn]> (statuses s))
           \/ (a = StoreEnd i /\ writers s !! i = Some (Storing c)
               /\ statuses s' = <[Name (ep c) := Whole (allocated c)]> (statuses s)))
  /\ (forall i c cl,
       writers s !! i = Some Outside -> mu s = mkRWMutex false 0 ->
       exists s',
         run (put i c) s = Some s'
         /\ statuses s' = <[Name (ep c) := Whole (allocated c)]> (statuses s)
         /\ complete (statuses s')
            = HealthChecker.statuses
                (updateStatus (ep c) (healthy c) (latency c) (errMsg c) (now c)
                   (mkHealthChecker (endpoints s) cl (complete (statuses s))))).
Proof.
  intros Hrun.
  pose proof (store_inv_run _ _ _ (store_inv_init eps nw nr) Hrun) as Hinv.
  split_and!.
  - by apply observed_sound.
  - intros i w j seen Hi Hj.
    destruct w; [done|exfalso; by eapply store_exclusion..].
  - intros a s'. apply step_mutation.
  - intros i c cl Hi Hmu.
    destruct (put_runs s i c cl Hi Hmu) as (s' & H1 & _ & _ & _ & H2 & H3). eauto.
Qed.

Lemma store_reads_never_torn_witness :
  exists s,
    run schedule_rw (init [epA] 1 1) = Some s
    /\ snapshots s = [[None]; [Some (Whole (allocated callA))]]
    /\ Forall (sound (puts s)) (observed s).
Proof.
  eexists. split; [vm_compute; reflexivity|]. split; [vm_compute; reflexivity|].
  refine (proj1 (store_reads_never_torn [epA] 1 1 schedule_rw _ _)).
  vm_compute; reflexivity.
Defined.

End ResultStoreSpec.

(** ** More on the health checker *)

Module HealthCheckerExtra.
Import HealthChecker HealthCheckerSpec.

Lemma after_snoc hist p hc :
  after (hist ++ [p]) hc = checkEndpoint p.1.1 p.1.2 p.2 (after hist hc).
Proof. unfold after. by rewrite foldl_app. Qed.

Lemma checkEndpoint_entry ep a now hc hc' :
  statuses (checkEndpoint ep a now hc) !! Name ep
  = statuses (checkEndpoint ep a now hc') !! Name ep.
Proof. destruct a; simpl; by rewrite !lookup_insert_eq. Qed.

Lemma latest_snoc n hist (p : probe) :
  latest n (hist ++ [p])
  = if decide (Name p.1.1 = n) then Some p else latest n hist.
Proof.
  unfold latest. rewrite filter_app. case_decide as Hn.
  - rewrite (filter_cons_True _ p []), filter_nil by done. by rewrite last_snoc.
  - rewrite (filter_cons_False _ p []), filter_nil by done. by rewrite app_nil_r.
Qed.

(** The store keeps one observation per name, the latest: after any
    history of probes the entry under a name is the one that the most
    recent probe made under that name would leave on its own, and it is
    the initial entry when there was no such probe. *)
Theorem store_keeps_latest_probe hist hc n :
  statuses (after hist hc) !! n
  = statuses (after (option_list (latest n hist)) hc) !! n.
Proof.
  induction hist as [|p hist IH] using rev_ind; [done|].
  rewrite after_snoc, latest_snoc. case_decide as Hn.
  - subst n. simpl. apply checkEndpoint_entry.
  - rewrite checkEndpoint_other by done. apply IH.
Qed.

(** Every entry of a store filled by probes is filed under the name of
    the endpoint it points to, and a healthy entry carries no error
    text. *)
Theorem store_entries_wellformed eps cl hist :
  map_Forall
    (fun name st => Name (hsEndpoint st) = name /\ (Healthy st = true -> Error st = ""))
    (statuses (after hist (mkHealthChecker eps cl ∅))).
Proof.
  induction hist as [|[[ep a] now] hist IH] using rev_ind.
  - apply map_Forall_empty.
  - rewrite after_snoc. generalize dependent (after hist (mkHealthChecker eps cl ∅)).
    intros hc IH. destruct a; simpl; apply map_Forall_insert_2; try done.
    split; [done|]. simpl. by intros ->.
Qed.

Lemma size_names (l : list string) :
  (size (list_to_set l : gset string) <= length l)%nat.
Proof.
  induction l as [|x l IHl]; [done|].
  cbn [list_to_set length]. rewrite size_union_alt, size_singleton.
  assert (size (list_to_set l ∖ {[x]} : gset string) <= size (list_to_set l : gset string))%nat
    by (apply subseteq_size, subseteq_difference_l; done).
  lia.
Qed.

(** The keys of the store are exactly the names probed so far: it never
    holds more entries than probes were made, nor, when only configured
    endpoints are probed, more than there are endpoints. *)
Theorem store_keys_are_probed_names eps cl hist :
  let store := statuses (after hist (mkHealthChecker eps cl ∅)) in
  dom store = list_to_set (probed hist)
  /\ (size store <= length hist)%nat
  /\ (Forall (fun p : probe => p.1.1 ∈ eps) hist -> (size store <= length eps)%nat).
Proof.
  simpl.
  assert (dom (statuses (after hist (mkHealthChecker eps cl ∅)))
          = list_to_set (probed hist)) as Hdom.
  { induction hist as [|[[ep a] now] hist IH] using rev_ind.
    - simpl. by rewrite dom_empty_L.
    - rewrite after_snoc. unfold probed in *. rewrite map_app, list_to_set_app_L.
      simpl. rewrite (right_id_L ∅ (∪)), (comm_L (∪) _ {[Name ep]}).
      destruct a; simpl; by rewrite dom_insert_L, IH. }
  split; [done|]. rewrite <- size_dom, Hdom.
  pose proof size_names as Hsize.
  split.
  - etrans; [apply Hsize|]. unfold probed. by rewrite length_map.
  - intros Hall. transitivity (size (list_to_set (map Name eps) : gset string)).
    + apply subseteq_size. intros n Hn. apply elem_of_list_to_set in Hn.
      apply elem_of_list_to_set. unfold probed in Hn.
      apply list_elem_of_fmap in Hn as (p & -> & Hp).
      apply list_elem_of_fmap. exists p.1.1. split; [done|].
      by eapply (proj1 (Forall_forall _ _) Hall).
    + etrans; [apply Hsize|]. by rewrite length_map.
Qed.

(** What the reporter shows for an endpoint right after a probe of it:
    on a response with the expected status the short healthy line; on any
    other status the failed line with "status <observed> (expected
    <expected>)"; on a transport error the failed line with the error
    text, or the short failed line when that text is empty. The latency
    shown is the measured one, in microseconds, and zero when the request
    could not be built. *)
Theorem report_after_probe fmt_ms ep a now hc :
  printEndpoint fmt_ms (statuses (checkEndpoint ep a now hc)) ep
  = match a with
    | DoResp since code =>
        if bool_decide (code = ExpectedStatus ep)
        then Printf "   %s %-25s %s\n" ["✅"; Name ep; fmt_ms (since `quot` 1000)]
        else Printf "   %s %-25s %s (error: %s)\n"
               ["❌"; Name ep; fmt_ms (since `quot` 1000);
                "status " +:+ fmt_d code +:+ " (expected "
                  +:+ fmt_d (ExpectedStatus ep) +:+ ")"]
    | DoErr since msg =>
        if bool_decide (msg = "")
        then Printf "   %s %-25s %s\n" ["❌"; Name ep; fmt_ms (since `quot` 1000)]
        else Printf "   %s %-25s %s (error: %s)\n"
               ["❌"; Name ep; fmt_ms (since `quot` 1000); msg]
    | NewRequestErr msg =>
        if bool_decide (msg = "")
        then Printf "   %s %-25s %s\n" ["❌"; Name ep; fmt_ms 0]
        else Printf "   %s %-25s %s (error: %s)\n" ["❌"; Name ep; fmt_ms 0; msg]
    end.
Proof.
  unfold printEndpoint.
  destruct a as [msg|since msg|since code]; simpl; rewrite lookup_insert_eq; simpl.
  - by repeat case_bool_decide.
  - by repeat case_bool_decide.
  - by destruct (bool_decide (code = ExpectedStatus ep)).
Qed.

Lemma monitorLoop_probes ep evs hc :
  monitorLoop ep evs hc
  = (if cancelled evs then Stopped else Waiting) (after (ticks ep evs) hc).
Proof.
  revert hc. induction evs as [|[|a t] evs IH]; intros hc; simpl; [done..|].
  by rewrite IH.
Qed.

(** For an endpoint with a positive interval, [monitorEndpoint] probes
    once at once and then once per tick, in order, until [ctx.Done()] is
    selected: the store it leaves is the one after exactly those probes,
    and whatever would be selected after [ctx.Done()] changes nothing. *)
Theorem monitorEndpoint_probes ep first now evs hc :
  0 < Interval ep ->
  monitorEndpoint ep first now evs hc
  = (if cancelled evs then Stopped else Waiting)
      (after ((ep, first, now) :: ticks ep evs) hc).
Proof.
  intros Hpos. unfold monitorEndpoint.
  replace (Interval ep <=? 0) with false by (symmetry; apply Z.leb_gt; lia).
  apply monitorLoop_probes.
Qed.

Lemma monitorEndpoint_probes_witness :
  monitorEndpoint (mkEndpoint "A" "http://127.0.0.1:9" (100 * Millisecond) (50 * Millisecond) 200)
    (DoErr 1000 "connection refused") 0
    [Tick (DoResp 5000 200) 100; CtxDone; Tick (DoResp 5000 503) 200]
    (mkHealthChecker [] (mkClient 100 10 0 None 0) ∅)
  = Stopped
      (after [(mkEndpoint "A" "http://127.0.0.1:9" (100 * Millisecond) (50 * Millisecond) 200,
               DoErr 1000 "connection refused", 0);
              (mkEndpoint "A" "http://127.0.0.1:9" (100 * Millisecond) (50 * Millisecond) 200,
               DoResp 5000 200, 100)]
         (mkHealthChecker [] (mkClient 100 10 0 None 0) ∅)).
Proof.
  exact (monitorEndpoint_probes
           (mkEndpoint "A" "http://127.0.0.1:9" (100 * Millisecond) (50 * Millisecond) 200)
           (DoErr 1000 "connection refused") 0
           [Tick (DoResp 5000 200) 100; CtxDone; Tick (DoResp 5000 503) 200]
           (mkHealthChecker [] (mkClient 100 10 0 None 0) ∅) eq_refl).
Defined.

(** A negative interval in the configuration is not a startup error:
    [loadEndpoints] returns the entry with its interval unchanged, and
    [monitorEndpoint] on that entry panics in [time.NewTicker], before any
    probe is made. *)
Theorem negative_interval_panics ReadFile Unmarshal filename data parsed i e :
  ReadFile filename = Ok data -> Unmarshal data = Ok parsed ->
  parsed !! i = Some e -> Interval e < 0 ->
  exists loaded e',
    loadEndpoints ReadFile Unmarshal filename = Ok loaded
    /\ loaded !! i = Some e'
    /\ Interval e' = Interval e
    /\ forall first now evs hc, monitorEndpoint e' first now evs hc = Panicked.
Proof.
  intros Hread Hparse Hi Hneg. rewrite loadEndpoints_eq, Hread, Hparse.
  exists (map withDefaults parsed), (withDefaults e).
  split; [done|]. split; [by rewrite list_lookup_fmap, Hi|].
  assert (Interval (withDefaults e) = Interval e) as Hint.
  { simpl. rewrite bool_decide_eq_false_2; [done|lia]. }
  split; [done|]. intros first now evs hc. unfold monitorEndpoint.
  rewrite Hint. by replace (Interval e <=? 0) with true by (symmetry; apply Z.leb_le; lia).
Qed.

Lemma negative_interval_panics_witness :
  exists loaded e',
    loadEndpoints (fun _ => Ok []) (fun _ => Ok [mkEndpoint "a" "http://a" (-7) 0 0])
      "endpoints.json" = Ok loaded
    /\ loaded !! 0%nat = Some e'
    /\ Interval e' = -7
    /\ forall first now evs hc, monitorEndpoint e' first now evs hc = Panicked.
Proof.
  exact (negative_interval_panics (fun _ => Ok [])
           (fun _ => Ok [mkEndpoint "a" "http://a" (-7) 0 0]) "endpoints.json" []
           [mkEndpoint "a" "http://a" (-7) 0 0] 0%nat
           (mkEndpoint "a" "http://a" (-7) 0 0) eq_refl eq_refl eq_refl eq_refl).
Defined.

Lemma withDefaults_idemp e : withDefaults (withDefaults e) = withDefaults e.
Proof.
  destruct e as [n u i t x]. unfold withDefaults; simpl.
  repeat case_bool_decide; try done; exfalso;
    match goal with H : _ * Second = 0 |- _ => by vm_compute in H end.
Qed.

(** Whatever [loadEndpoints] returns has no zero interval, timeout or
    expected status left, and running its defaults loop over it again
    changes nothing. *)
Theorem loadEndpoints_no_zero_fields ReadFile Unmarshal filename loaded :
  loadEndpoints ReadFile Unmarshal filename = Ok loaded ->
  Forall (fun e => Interval e <> 0 /\ Timeout e <> 0 /\ ExpectedStatus e <> 0) loaded
  /\ foldl setDefaultsAt loaded (seq 0 (length loaded)) = loaded.
Proof.
  rewrite loadEndpoints_eq. destruct (ReadFile filename) as [data|]; [|done].
  destruct (Unmarshal data) as [parsed|]; [|done]. intros [= <-]. split.
  - apply Forall_fmap, Forall_forall. intros [n u i t x] _. simpl.
    repeat case_bool_decide; split_and!; try done; by vm_compute.
  - pose proof (setDefaults_loop [] (map withDefaults parsed)) as Hl.
    simpl in Hl. rewrite Hl. rewrite <- list_fmap_compose. apply list_fmap_ext. intros _ e _. simpl.
    apply withDefaults_idemp.
Qed.

Lemma loadEndpoints_no_zero_fields_witness :
  Forall (fun e => Interval e <> 0 /\ Timeout e <> 0 /\ ExpectedStatus e <> 0)
    [mkEndpoint "a" "http://a" (-7) (3 * Second) 200].
Proof.
  exact (proj1 (loadEndpoints_no_zero_fields (fun _ => Ok [])
                  (fun _ => Ok [mkEndpoint "a" "http://a" (-7) 0 0]) "endpoints.json"
                  [mkEndpoint "a" "http://a" (-7) (3 * Second) 200] eq_refl)).
Defined.

Lemma head_omap_Some {A B} (f : A -> option B) (l : list A) y :
  head (omap f l) = Some y
  <-> exists k x, l !! k = Some x /\ f x = Some y
        /\ forall j x', (j < k)%nat -> l !! j = Some x' -> f x' = None.
Proof.
  induction l as [|a l IH]; simpl.
  - split; [done|]. by intros (k & x & Hk & _).
  - destruct (f a) as [b|] eqn:Ha; simpl.
    + split.
      * intros [= <-]. exists 0%nat, a. split_and!; [done..|]. intros j x' Hj. lia.
      * intros ([|k] & x & Hk & Hx & Hbefore); simplify_eq/=; [congruence|].
        specialize (Hbefore 0%nat a). simpl in Hbefore.
        rewrite Hbefore in Ha; [done|lia|done].
    + rewrite IH. split.
      * intros (k & x & Hk & Hx & Hbefore). exists (S k), x. split_and!; [done..|].
        intros [|j] x' Hj Hx'; simplify_eq/=; [done|]. eapply Hbefore; [|done]. lia.
      * intros ([|k] & x & Hk & Hx & Hbefore); simplify_eq/=.
        exists k, x. split_and!; [done..|]. intros j x' Hj Hx'.
        apply (Hbefore (S j) x'); [lia|done].
Qed.

(** [getInterfaceAddr] returns an address exactly when the interface
    exists, its addresses can be listed and one of them is an IPv4 network
    address; the address returned is the first such one in the list. A
    failed lookup, a failed listing and an interface without an IPv4
    address all give nil. *)
Theorem getInterfaceAddr_first_ipv4 {Interface IP : Type}
    (InterfaceByName : string -> result Interface)
    (Addrs : Interface -> result (list (option IP))) (isIPv4 : IP -> bool) name ip :
  getInterfaceAddr InterfaceByName Addrs isIPv4 name = Some ip
  <-> exists iface addrs k,
        InterfaceByName name = Ok iface /\ Addrs iface = Ok addrs
        /\ addrs !! k = Some (Some ip) /\ isIPv4 ip = true
        /\ forall j ip', (j < k)%nat -> addrs !! j = Some (Some ip') -> isIPv4 ip' = false.
Proof.
  unfold getInterfaceAddr.
  destruct (InterfaceByName name) as [iface|] eqn:Hif;
    [|split; [done|by intros (? & ? & ? & ? & _)]].
  destruct (Addrs iface) as [addrs|] eqn:Had;
    [|split; [done|intros (? & ? & ? & [= <-] & ? & _); congruence]].
  rewrite head_omap_Some. split.
  - intros (k & [ip'|] & Hk & Hx & Hbefore); [|done].
    destruct (isIPv4 ip') eqn:H4; [|done]. injection Hx as ->.
    exists iface, addrs, k. split_and!; [done..|].
    intros j ip' Hj Hip'. specialize (Hbefore j (Some ip') Hj Hip'). simpl in Hbefore.
    by destruct (isIPv4 ip').
  - intros (iface' & addrs' & k & [= <-] & Had' & Hk & H4 & Hbefore).
    rewrite Had in Had'. injection Had' as <-.
    exists k, (Some ip). split; [done|]. rewrite H4. split; [done|].
    intros j [ip'|] Hj Hx'; [|done]. by rewrite (Hbefore j ip' Hj Hx').
Qed.

(** The first report after startup, before any probe has completed, shows
    every monitored endpoint as pending, in configuration order. *)
Theorem first_report_all_pending {Interface IP : Type} ReadFile Unmarshal
    (InterfaceByName : string -> result Interface)
    (Addrs : Interface -> result (list (option IP))) isIPv4
    configFile interfaceName fmt_ms hc monitored :
  main ReadFile Unmarshal InterfaceByName Addrs isIPv4 configFile interfaceName
  = Started hc monitored ->
  printStatus fmt_ms hc
  = Println "\n📊 Health Status:"
      :: map (fun ep => Printf "   ⏳ %-25s checking...\n" [Name ep]) monitored.
Proof.
  unfold main. intros Hm.
  assert (endpoints hc = monitored /\ statuses hc = ∅) as [He Hs].
  { case_bool_decide; [destruct (loadEndpoints _ _ _)|];
      by simplify_eq/=. }
  unfold printStatus. rewrite He, Hs. reflexivity.
Qed.

Lemma first_report_all_pending_witness :
  printStatus pretty
    (mkHealthChecker defaultEndpoints (mkClient 100 10 (90 * Second) None (10 * Second)) ∅)
  = Println "\n📊 Health Status:"
      :: map (fun ep => Printf "   ⏳ %-25s checking...\n" [Name ep]) defaultEndpoints.
Proof.
  exact (first_report_all_pending (fun _ => Err "no such file") (fun _ => Ok [])
           (fun _ => Err "no such interface") (fun _ : unit => Ok [])
           (fun _ : unit => true) "" "" pretty _ _ eq_refl).
Defined.

End HealthCheckerExtra.

(** ** More on the port scanner *)

Module PortScannerExtra.
Import PortScanner PortScannerSpec.

(** [getServiceName] answers "unknown" exactly for the ports outside its
    table of nineteen, in particular for every port below 21 or above
    27017, and no two ports of the table share a name. *)
Theorem getServiceName_known :
  let table := [21; 22; 23; 25; 53; 80; 110; 143; 443; 445; 993; 995; 3306;
                3389; 5432; 6379; 8080; 8443; 27017] in
  (forall port, getServiceName port <> "unknown" <-> port ∈ table)
  /\ (forall port, port < 21 \/ 27017 < port -> getServiceName port = "unknown")
  /\ (forall p q, p ∈ table -> q ∈ table -> getServiceName p = getServiceName q -> p = q).
Proof.
  intros table.
  assert (forall port, port ∉ table -> getServiceName port = "unknown") as Hout.
  { intros port Hn. unfold getServiceName, services.
    rewrite (not_elem_of_list_to_map_1 _ port); [done|]. exact Hn. }
  assert (Forall (fun p => getServiceName p <> "unknown") table) as Hin
    by compute_done.
  split_and!.
  - intros port. split.
    + intros Hk. destruct (decide (port ∈ table)) as [|Hn]; [done|].
      by rewrite (Hout port Hn) in Hk.
    + apply (proj1 (Forall_forall _ _) Hin).
  - intros port Hp. apply Hout. intros Hmem.
    unfold table in Hmem. set_unfold. lia.
  - assert (Forall (fun p => Forall (fun q =>
              getServiceName p = getServiceName q -> p = q) table) table) as Hinj
      by compute_done.
    intros p q Hp Hq.
    apply (proj1 (Forall_forall _ _) (proj1 (Forall_forall _ _) Hinj p Hp) q Hq).
Qed.

Section Bounds.

Variables (host : string) (startPort endPort : Z) (timeout : Z) (workers : Z).

Abbreviation W := (Z.to_nat workers).
Abbreviation step := (step host endPort timeout).
Abbreviation run := (run host endPort timeout).
Abbreviation init := (init startPort workers).

Lemma length_omap_le {A B} (f : A -> option B) (l : list A) :
  (length (omap f l) <= length l)%nat.
Proof.
  induction l as [|a l IH]; [done|].
  change (omap f (a :: l))
    with (match f a with Some b => b :: omap f l | None => omap f l end).
  destruct (f a); simpl; lia.
Qed.

Lemma bounds_step a s s' :
  step a s = Some s' ->
  (length (ports s) <= capacity /\ length (results s) <= capacity)%nat ->
  (length (ports s') <= capacity /\ length (results s') <= capacity
   /\ length (pool s') = length (pool s))%nat.
Proof.
  intros Hstep [Hp Hr].
  destruct a; step_inversion Hstep; rewrite ?length_app, ?length_insert; simpl; lia.
Qed.

(** The scan keeps its resources bounded, whatever the schedule: neither
    channel ever holds more than 100 elements, the pool keeps the size it
    was started with, and the dials in flight never outnumber the
    workers. *)
Theorem scanPorts_bounded sched s :
  run sched init = Some s ->
  (length (ports s) <= 100 /\ length (results s) <= 100
   /\ length (pool s) = W /\ length (dialing (pool s)) <= W)%nat.
Proof.
  intros Hrun.
  assert ((length (ports s) <= capacity /\ length (results s) <= capacity)
          /\ length (pool s) = W)%nat as [[Hp Hr] Hl].
  { assert ((length (ports init) <= capacity /\ length (results init) <= capacity)
            /\ length (pool init) = W)%nat as Hinit.
    { simpl. rewrite length_replicate. unfold capacity. lia. }
    revert Hrun Hinit. generalize init. induction sched as [|a sched IH]; intros s0; simpl.
    - by intros [= <-].
    - destruct (step a s0) as [s1|] eqn:Hs; [|done]. intros Hrun [Hb Hl].
      apply (IH s1 Hrun). destruct (bounds_step _ _ _ Hs Hb) as (? & ? & Hl').
      split; [done|]. by rewrite Hl'. }
  split_and!; try done.
  rewrite <- Hl. apply length_omap_le.
Qed.

End Bounds.

Lemma scanPorts_bounded_witness :
  exists s,
    PortScanner.run "localhost" 9 (500 * Millisecond) schedule_7_9
      (PortScanner.init 7 2) = Some s
    /\ (length (dialing (pool s)) <= 2)%nat.
Proof.
  eexists. split; [vm_compute; reflexivity|].
  refine (proj2 (proj2 (proj2 (scanPorts_bounded "localhost" 7 9 (500 * Millisecond) 2
                                 schedule_7_9 _ _)))).
  vm_compute; reflexivity.
Defined.


Section Results.

Variables (host : string) (startPort endPort : Z) (timeout : Z) (workers : Z).

Abbreviation W' := (Z.to_nat workers).
Abbreviation step' := (PortScanner.step host endPort timeout).
Abbreviation run' := (PortScanner.run host endPort timeout).
Abbreviation init' := (PortScanner.init startPort workers).

Lemma no_worker_step a s s' :
  in_int64 startPort -> in_int64 endPort ->
  no_worker_inv startPort endPort s -> step' a s = Some s' ->
  no_worker_inv startPort endPort s'.
Proof.
  intros [Hmin _] [_ Hmax]
    (Hpool & Hlog & Hres & Hopen & Hlen & Hport & Hprod & Hclosed) Hstep.
  unfold no_worker_inv.
  destruct a; try (unfold PortScanner.step in Hstep; rewrite Hpool in Hstep; done);
    step_inversion Hstep; try congruence.
  - (* Produce *)
    split_and!; try done; try congruence.
    + rewrite length_app. simpl. lia.
    + apply wrap64_in_int64.
    + destruct Hprod as [Hm|Hp]; [by left|].
      destruct (decide (endPort = max_int64)) as [|Hne]; [by left|]. right.
      rewrite wrap64_small by (unfold in_int64, min_int64, max_int64 in *; lia).
      rewrite length_app. simpl. lia.
  - (* ClosePorts *)
    split_and!; done.
  - (* CloseResults *)
    split_and!; done.
  - (* Return *)
    split_and!; done.
Qed.

Lemma no_worker_run sched s s' :
  in_int64 startPort -> in_int64 endPort ->
  no_worker_inv startPort endPort s -> run' sched s = Some s' ->
  no_worker_inv startPort endPort s'.
Proof.
  intros Hs He. revert s. induction sched as [|a sched IH]; intros s Hinv; simpl.
  - by intros [= <-].
  - destruct (step' a s) as [s1|] eqn:Hst; [|done].
    apply IH. by eapply no_worker_step.
Qed.

(** Started with no worker ([workers <= 0]), [scanPorts] dials nothing:
    it can return at once, what it returns is empty whatever the network,
    and when the range has more than 100 ports the producer never gets to
    close [ports], so its goroutine is left blocked on the full channel. *)
Theorem scanPorts_without_workers sched s :
  workers <= 0 -> in_int64 startPort -> in_int64 endPort ->
  run' sched init' = Some s ->
  attempts s = [] /\ openPorts s = []
  /\ (100 < endPort - startPort + 1 -> ports_closed s = false)
  /\ exists s', run' [CloseResults; Return] init' = Some s'
              /\ returned s' = true /\ openPorts s' = [].
Proof.
  intros HW Hs He Hrun.
  assert (W' = 0%nat) as HW0 by lia.
  assert (no_worker_inv startPort endPort init') as Hinit.
  { unfold no_worker_inv, PortScanner.init; simpl. rewrite HW0. simpl.
    unfold capacity. split_and!; try done; try lia. }
  destruct (no_worker_run _ _ _ Hs He Hinit Hrun)
    as (Hpool & Hlog & Hres & Hopen & Hlen & Hport & Hprod & Hclosed).
  split_and!; try done.
  - intros Hbig. destruct (ports_closed s) eqn:Hc; [|done]. exfalso.
    specialize (Hclosed eq_refl). unfold capacity in Hlen.
    destruct Hport as [_ Hhi]. destruct Hprod as [->|Hp]; lia.
  - eexists. unfold PortScanner.run, PortScanner.step, PortScanner.init; simpl.
    rewrite HW0. simpl. done.
Qed.

Lemma stable_log_step net a s s' :
  step' a s = Some s' -> match a with Dial _ n => n = net | _ => True end ->
  stable_log host timeout net (attempts s) ->
  stable_log host timeout net (attempts s').
Proof.
  intros Hstep Ha Hlog. unfold stable_log in *.
  destruct a; step_inversion Hstep; try done; subst;
    (apply Forall_app; split; [done|]); apply Forall_singleton; simpl;
    unfold accepts; congruence.
Qed.

Lemma stable_log_run net sched s s' :
  uses net sched -> run' sched s = Some s' ->
  stable_log host timeout net (attempts s) ->
  stable_log host timeout net (attempts s').
Proof.
  revert s. induction sched as [|a sched IH]; intros s Huses; simpl.
  - by intros [= <-].
  - destruct (step' a s) as [s1|] eqn:Hst; [|done]. intros Hrun Hlog.
    apply Forall_cons in Huses as [Ha Huses].
    apply (IH s1 Huses Hrun). by eapply stable_log_step.
Qed.

Lemma successes_stable net log :
  stable_log host timeout net log ->
  successes log
  = map (fun p => mkScanResult p true "")
      (filter (fun p => accepts host timeout net p = true) (attempted log)).
Proof.
  unfold stable_log, successes, attempted.
  induction log as [|[[i p] o] log IH]; [done|].
  intros Hall. apply Forall_cons in Hall as [Ho Hall]. simpl in Ho.
  cbn [map]. rewrite !filter_cons. simpl. rewrite <- Ho.
  destruct o; simpl; repeat case_decide; try done; simpl; by rewrite IH.
Qed.

(** At the return of a call with at least one worker, the dials made are
    the range and the slice returned is the successful ones. *)
Lemma returned_result sched s :
  in_int64 startPort -> in_int64 endPort -> 1 <= workers ->
  run' sched init' = Some s -> returned s = true ->
  attempted (attempts s) ≡ₚ jobs startPort endPort
  /\ openPorts s ≡ₚ successes (attempts s).
Proof.
  intros Hs He HW Hrun Hr.
  pose proof (reachable_pool_inv host _ _ timeout _ _ _ Hs Hrun) as Hinv.
  assert (0 < W')%nat as HW' by lia.
  destruct (decide (endPort = max_int64)) as [Hmax|Hmax].
  { by rewrite (max_port_not_returned _ _ s HW' Hmax Hinv) in Hr. }
  assert (endPort < max_int64) as Hlt by (destruct He; lia).
  pose proof (reachable_range_inv host _ _ timeout _ _ _ Hs Hlt Hrun) as Hrange.
  split; [by eapply returned_all_attempted|].
  destruct Hinv as (_ & _ & _ & _ & Hres & Hret & Hperm).
  destruct (Hret Hr) as [Hrc Hempty]. pose proof (Hres Hrc) as Hex.
  assert (sending (pool s) = []) as Hsend.
  { clear -Hex. induction (pool s) as [|w l IHl]; [done|].
    simpl in Hex. apply andb_true_iff in Hex as [Hw Hl].
    destruct w; try done. by apply IHl. }
  by rewrite Hempty, Hsend, !app_nil_r in Hperm.
Qed.

Lemma scanPorts_on_stable_network_aux net sched s :
  in_int64 startPort -> in_int64 endPort -> 1 <= workers ->
  uses net sched -> run' sched init' = Some s -> returned s = true ->
  openPorts s
  ≡ₚ map (fun p => mkScanResult p true "")
       (filter (fun p => accepts host timeout net p = true) (jobs startPort endPort)).
Proof.
  intros Hs He HW Huses Hrun Hr.
  destruct (returned_result sched s Hs He HW Hrun Hr) as [Hall Hopen].
  assert (stable_log host timeout net (attempts s)) as Hlog.
  { eapply stable_log_run; [done..|]. by apply Forall_nil. }
  by rewrite Hopen, (successes_stable net _ Hlog), Hall.
Qed.

(** On a network that answers every dial of the call alike, what
    [scanPorts] returns with at least one worker is, up to order, the
    ports of the range that accept a connection, each once, whatever the
    schedule and the number of workers. *)
Theorem scanPorts_on_stable_network net sched s :
  in_int64 startPort -> in_int64 endPort -> 1 <= workers ->
  uses net sched -> run' sched init' = Some s -> returned s = true ->
  openPorts s
  ≡ₚ map (fun p => mkScanResult p true "")
       (filter (fun p => accepts host timeout net p = true) (jobs startPort endPort)).
Proof. apply scanPorts_on_stable_network_aux. Qed.

End Results.

Lemma scanPorts_without_workers_witness :
  exists s,
    PortScanner.run "localhost" 1024 (500 * Millisecond)
      (replicate 100 Produce ++ [CloseResults; Return]) (PortScanner.init 1 0) = Some s
    /\ returned s = true /\ attempts s = [] /\ ports_closed s = false.
Proof.
  eexists. split; [vm_compute; reflexivity|]. split; [reflexivity|].
  match goal with
  | |- attempts ?s = [] /\ _ =>
      destruct (scanPorts_without_workers "localhost" 1 1024 (500 * Millisecond) 0
                  (replicate 100 Produce ++ [CloseResults; Return]) s)
        as (Hlog & _ & Hleak & _)
  end.
  - done.
  - split; discriminate.
  - split; discriminate.
  - vm_compute; reflexivity.
  - split; [exact Hlog|]. apply Hleak. done.
Defined.

#[local] Instance by_port_trans : Transitive by_port.
Proof. intros a b c. unfold by_port. lia. Qed.

#[local] Instance by_port_total : Total by_port.
Proof. intros a b. unfold by_port. lia. Qed.

Lemma sortSlice_ports_sorted l : StronglySorted Z.le (map Port (sortSlice l)).
Proof.
  apply (StronglySorted_fmap Port by_port Z.le); [done|].
  apply StronglySorted_merge_sort; apply _.
Qed.

Lemma sortSlice_ports_perm l : map Port (sortSlice l) ≡ₚ map Port l.
Proof. unfold sortSlice. by rewrite merge_sort_Permutation. Qed.

Lemma sorted_NoDup_lt (l : list Z) :
  StronglySorted Z.le l -> NoDup l -> StronglySorted Z.lt l.
Proof.
  induction 1 as [|x l Hs IH Hall]; intros Hnd; [constructor|].
  apply NoDup_cons in Hnd as [Hx Hnd]. constructor; [by apply IH|].
  apply Forall_forall. intros y Hy.
  pose proof (proj1 (Forall_forall _ _) Hall y Hy).
  assert (x <> y) by (by intros ->). lia.
Qed.

Lemma sorted_upto a b : StronglySorted Z.le (upto a b).
Proof.
  unfold upto. generalize (Z.to_nat (b - a)) as n, 0%nat as m.
  induction n as [|n IH]; intros m; simpl; constructor; [apply IH|].
  apply Forall_fmap, Forall_forall. intros k Hk. apply elem_of_seq in Hk.
  simpl. lia.
Qed.

Lemma sorted_filter (P : Z -> Prop) `{!forall x, Decision (P x)} (l : list Z) :
  StronglySorted Z.le l -> StronglySorted Z.le (filter P l).
Proof.
  induction 1 as [|x l Hs IH Hall]; [constructor|].
  rewrite filter_cons. case_decide; [|done]. constructor; [done|].
  apply Forall_forall. intros y Hy. apply list_elem_of_filter in Hy as [_ Hy].
  by apply (proj1 (Forall_forall _ _) Hall).
Qed.

Lemma ports_of_successes_sublist log :
  map Port (successes log) `sublist_of` attempted log.
Proof.
  unfold successes, attempted. induction log as [|[[i p] o] log IH]; [done|].
  rewrite filter_cons. simpl.
  destruct o; case_decide; try done; simpl;
    [by apply sublist_skip|by apply sublist_cons].
Qed.

Lemma elem_of_ports_of_successes log p :
  p ∈ map Port (successes log) <-> exists i, (i, p, true) ∈ log.
Proof.
  unfold successes. rewrite <- list_fmap_compose. rewrite list_elem_of_fmap. split.
  - intros ([[i q] o] & -> & He). apply list_elem_of_filter in He as [Ho He].
    simpl in *. subst o. by exists i.
  - intros [i Hi]. exists (i, p, true). split; [done|].
    by apply list_elem_of_filter.
Qed.

Section Listing.

Variables (host : string) (startPort endPort : Z) (timeout : Z) (workers : Z).
Variable fmt_v : Z -> string.

(** After a scan with at least one worker, the ports that [main] lists
    are in strictly increasing order, so each is listed once, and they are
    exactly the ports a dial to which succeeded. *)
Theorem listing_sorted_and_exact sched s :
  in_int64 startPort -> in_int64 endPort -> 1 <= workers ->
  PortScanner.run host endPort timeout sched (PortScanner.init startPort workers) = Some s ->
  returned s = true ->
  StronglySorted Z.lt (map Port (sortSlice (openPorts s)))
  /\ forall p, p ∈ map Port (sortSlice (openPorts s)) <-> exists i, (i, p, true) ∈ attempts s.
Proof.
  intros Hs He HW Hrun Hr.
  destruct (returned_result host _ _ timeout _ sched s Hs He HW Hrun Hr) as [Hall Hopen].
  assert (map Port (sortSlice (openPorts s)) ≡ₚ map Port (successes (attempts s))) as Hp
    by (by rewrite sortSlice_ports_perm, Hopen).
  split.
  - apply sorted_NoDup_lt; [apply sortSlice_ports_sorted|].
    rewrite Hp. eapply sublist_NoDup; [|apply ports_of_successes_sublist].
    rewrite Hall. apply NoDup_upto.
  - intros p. rewrite Hp. apply elem_of_ports_of_successes.
Qed.

(** On a network that answers every dial alike, the whole of what [main]
    prints after a scan with at least one worker is determined: one line
    for each port of the range that accepts a connection, in increasing
    order, or the no-open-ports line when there is none, and the count of
    those ports in the last line. *)
Theorem display_on_stable_network net sched s elapsed :
  in_int64 startPort -> in_int64 endPort -> 1 <= workers ->
  uses net sched ->
  PortScanner.run host endPort timeout sched (PortScanner.init startPort workers) = Some s ->
  returned s = true ->
  let opens := filter (fun p => accepts host timeout net p = true)
                 (jobs startPort endPort) in
  display fmt_v (openPorts s) startPort endPort elapsed
  = [HealthChecker.Println "\n📊 Results:"; HealthChecker.Println rule]
    ++ (if bool_decide (opens = [])
        then [HealthChecker.Println "No open ports found"]
        else map (fun p => HealthChecker.Printf "  Port %5d: OPEN  (%s)\n"
                             [fmt_d p; getServiceName p]) opens)
    ++ [HealthChecker.Println rule;
        HealthChecker.Printf "Scan completed in %v\n" [fmt_v elapsed];
        HealthChecker.Printf "Open ports: %d/%d\n"
          [fmt_d (Z.of_nat (length opens));
           fmt_d (wrap64 (wrap64 (endPort - startPort) + 1))]].
Proof.
  intros Hs He HW Huses Hrun Hr opens.
  pose proof (scanPorts_on_stable_network_aux host _ _ timeout _ net sched s
                Hs He HW Huses Hrun Hr) as Hopen.
  fold opens in Hopen.
  assert (map Port (sortSlice (openPorts s)) = opens) as Hports.
  { apply (StronglySorted_unique Z.le).
    - apply sortSlice_ports_sorted.
    - apply sorted_filter, sorted_upto.
    - rewrite sortSlice_ports_perm, Hopen, <- list_fmap_compose.
      by rewrite list_fmap_id. }
  assert (length (openPorts s) = length opens) as Hlen
    by (by rewrite Hopen, length_map).
  unfold display. rewrite Hlen. f_equal. f_equal.
  destruct opens as [|p opens'] eqn:Hopens.
  - by rewrite bool_decide_eq_true_2.
  - rewrite bool_decide_eq_false_2 by done. rewrite bool_decide_eq_false_2 by done.
    rewrite <- Hports, <- list_fmap_compose. done.
Qed.

End Listing.

Lemma scanPorts_on_stable_network_witness :
  exists s,
    PortScanner.run "localhost" 9 (500 * Millisecond) schedule_7_9
      (PortScanner.init 7 2) = Some s
    /\ openPorts s ≡ₚ [mkScanResult 9 true ""].
Proof.
  eexists. split; [vm_compute; reflexivity|].
  refine (scanPorts_on_stable_network "localhost" 7 9 (500 * Millisecond) 2 only9
            schedule_7_9 _ _ _ _ _ _ _).
  - split; discriminate.
  - split; discriminate.
  - discriminate.
  - repeat constructor.
  - vm_compute; reflexivity.
  - reflexivity.
Defined.

Lemma listing_sorted_and_exact_witness :
  exists s,
    PortScanner.run "localhost" 9 (500 * Millisecond) schedule_7_9
      (PortScanner.init 7 2) = Some s
    /\ StronglySorted Z.lt (map Port (sortSlice (openPorts s))).
Proof.
  eexists. split; [vm_compute; reflexivity|].
  refine (proj1 (listing_sorted_and_exact "localhost" 7 9 (500 * Millisecond) 2
                   schedule_7_9 _ _ _ _ _ _)).
  - split; discriminate.
  - split; discriminate.
  - discriminate.
  - vm_compute; reflexivity.
  - reflexivity.
Defined.

Lemma display_on_stable_network_witness :
  exists s,
    PortScanner.run "localhost" 9 (500 * Millisecond) schedule_7_9
      (PortScanner.init 7 2) = Some s
    /\ display pretty (openPorts s) 7 9 0
       = [HealthChecker.Println "\n📊 Results:"; HealthChecker.Println rule;
          HealthChecker.Printf "  Port %5d: OPEN  (%s)\n" ["9"; "unknown"];
          HealthChecker.Println rule;
          HealthChecker.Printf "Scan completed in %v\n" ["0"];
          HealthChecker.Printf "Open ports: %d/%d\n" ["1"; "3"]].
Proof.
  eexists. split; [vm_compute; reflexivity|].
  refine (display_on_stable_network "localhost" 7 9 (500 * Millisecond) 2 pretty only9
            schedule_7_9 _ 0 _ _ _ _ _ _).
  - split; discriminate.
  - split; discriminate.
  - discriminate.
  - repeat constructor.
  - vm_compute; reflexivity.
  - reflexivity.
Defined.

End PortScannerExtra.

(** ** More on ping *)

Module PingExtra.
Import Ping PingSpec.

(** [ping] returns a nil error exactly when the socket opens, the echo
    request marshals, the deadline is set, the request is written, a reply
    is read and that reply parses as an echo reply; the request it builds
    carries the given sequence number and an identifier of 16 bits. Every
    other course, a reply of another type included, is an error. *)
Theorem ping_succeeds_iff w seq timeout now :
  let msg := mkMessage ICMPTypeEcho 0 (Z.land (Getpid w) 65535) seq
               "PING from Go exercise!" in
  0 <= ID msg <= 65535
  /\ ((ping w seq timeout now).2 = None
      <-> exists bytes reply,
            ListenPacket w = Ok () /\ Marshal w msg = Ok bytes
            /\ SetDeadline w (now + timeout) = Ok () /\ WriteTo w bytes = Ok ()
            /\ ReadFrom w = Ok reply
            /\ ParseMessage w protocolICMP reply = Ok ICMPTypeEchoReply).
Proof.
  intros msg. split.
  { simpl. change 65535 with (Z.ones 16). rewrite Z.land_ones by lia.
    pose proof (Z.mod_pos_bound (Getpid w) (2 ^ 16) eq_refl).
    change (Z.ones 16) with (2 ^ 16 - 1). lia. }
  unfold ping, try. fold msg.
  destruct (ListenPacket w) as [[]|] eqn:Hl;
    [|split; [done|by intros (? & ? & ? & _)]].
  destruct (Marshal w msg) as [bytes|] eqn:Hm;
    [|split; [done|intros (? & ? & _ & ? & _); congruence]].
  destruct (SetDeadline w (now + timeout)) as [[]|] eqn:Hd;
    [|split; [done|intros (? & ? & _ & _ & ? & _); congruence]].
  destruct (WriteTo w bytes) as [[]|] eqn:Hw;
    [|split; [done|intros (? & ? & _ & ? & _ & ? & _); congruence]].
  destruct (ReadFrom w) as [reply|] eqn:Hr;
    [|split; [done|intros (? & ? & _ & _ & _ & _ & ? & _); congruence]].
  destruct (ParseMessage w protocolICMP reply) as [rm|] eqn:Hp;
    [|split; [done|intros (? & ? & _ & _ & _ & _ & ? & ?); congruence]].
  case_bool_decide as Hrm; simpl.
  - split; [done|]. intros (? & ? & _ & _ & _ & _ & ? & ?). congruence.
  - split; [|done]. intros _. exists bytes, reply.
    split_and!; try done. by rewrite Hp, Hrm.
Qed.

Section MainLoop.

Variables (host : string) (count timeout interval : Z).
Variables (worlds : Z -> world) (clock : Z -> Z).
Variables (ip : string) (fmt_2f : Z -> string) (fmt_loss : Z -> Z -> string).

Abbreviation loop := (pingLoop count timeout interval worlds clock ip fmt_2f).
Abbreviation replied :=
  (fun seq : Z => (ping (worlds seq) seq timeout (clock seq)).2 = None).

Lemma tally_sent o r : PacketsSent (tally o r) = wrap64 (PacketsSent r + 1).
Proof. unfold tally. by destruct o.2. Qed.

Lemma tally_recv o r :
  PacketsRecv (tally o r)
  = if decide (o.2 = None) then wrap64 (PacketsRecv r + 1) else PacketsRecv r.
Proof. unfold tally. by destruct o.2. Qed.

Lemma pingLoop_counts fuel i r :
  0 <= i -> i + Z.of_nat fuel = count -> count <= max_int64 ->
  PacketsSent r = i -> 0 <= PacketsRecv r <= i ->
  pinged (loop fuel i r).2 = map (fun k => i + 1 + Z.of_nat k) (seq 0 fuel)
  /\ sleeps (loop fuel i r).2 = replicate (fuel - 1) interval
  /\ PacketsSent (loop fuel i r).1 = count
  /\ PacketsRecv (loop fuel i r).1
     = PacketsRecv r
       + Z.of_nat (length (filter replied (map (fun k => i + 1 + Z.of_nat k) (seq 0 fuel)))).
Proof.
  revert i r. induction fuel as [|fuel IH]; intros i r Hi Hfuel Hmax Hsent Hrecv.
  { simpl. split_and!; try done; lia. }
  cbn [pingLoop].
  replace (i <? count) with true by (symmetry; apply Z.ltb_lt; lia).
  assert (wrap64 (i + 1) = i + 1) as Hw
    by (apply PortScannerSpec.wrap64_small; unfold in_int64, min_int64, max_int64 in *; lia).
  assert (wrap64 (count - 1) = count - 1) as Hc
    by (apply PortScannerSpec.wrap64_small; unfold in_int64, min_int64, max_int64 in *; lia).
  rewrite Hw, Hc. cbn [fst snd].
  set (o := ping (worlds (i + 1)) (i + 1) timeout (clock (i + 1))).
  destruct (IH (i + 1) (tally o r)) as (Hp & Hs & Hsn & Hrc); try lia.
  { by rewrite tally_sent, Hsent. }
  { rewrite tally_recv. case_decide; [|lia].
    rewrite PortScannerSpec.wrap64_small by (unfold in_int64, min_int64, max_int64 in *; lia). lia. }
  split_and!.
  - cbn [pinged omap list_omap]. fold (pinged (loop fuel (i + 1) (tally o r)).2).
    assert (forall l1 l2, pinged (l1 ++ l2) = pinged l1 ++ pinged l2) as Happ
      by (intros; unfold pinged; apply omap_app).
    rewrite Happ, Hp. replace (pinged (if i <? count - 1 then [Slept interval] else []))
      with (@nil Z) by (by destruct (i <? count - 1)).
    simpl. f_equal; [lia|]. rewrite <- fmap_S_seq, <- list_fmap_compose.
    apply list_fmap_ext. intros _ k _. simpl. lia.
  - cbn [sleeps omap list_omap]. fold (sleeps (loop fuel (i + 1) (tally o r)).2).
    assert (forall l1 l2, sleeps (l1 ++ l2) = sleeps l1 ++ sleeps l2) as Happ
      by (intros; unfold sleeps; apply omap_app).
    rewrite Happ, Hs. destruct (i <? count - 1) eqn:Hlt.
    + apply Z.ltb_lt in Hlt. destruct fuel as [|fuel]; [lia|]. simpl.
      by rewrite Nat.sub_0_r.
    + apply Z.ltb_ge in Hlt. destruct fuel as [|fuel]; [done|lia].
  - done.
  - rewrite Hrc, tally_recv. cbn [seq map]. rewrite filter_cons.
    replace (i + 1 + Z.of_nat 0) with (i + 1) by lia. fold o.
    rewrite <- fmap_S_seq, <- list_fmap_compose.
    assert (((fun k => i + 1 + Z.of_nat k) ∘ S <$> seq 0 fuel)
            = map (fun k => i + 1 + 1 + Z.of_nat k) (seq 0 fuel)) as ->
      by (apply list_fmap_ext; intros _ k _; simpl; lia).
    case_decide; simpl; [|lia].
    rewrite PortScannerSpec.wrap64_small by (unfold in_int64, min_int64, max_int64 in *; lia). lia.
Qed.

Lemma pinged_app l1 l2 : pinged (l1 ++ l2) = pinged l1 ++ pinged l2.
Proof. unfold pinged. apply omap_app. Qed.


Lemma pinged_printed line l : pinged (Printed line :: l) = pinged l.
Proof. done. Qed.


Lemma summary_trace r :
  pinged (summary host fmt_2f fmt_loss r).2 = []
  /\ sleeps (summary host fmt_2f fmt_loss r).2 = [].
Proof. unfold summary. by destruct (0 <? PacketsRecv r). Qed.

Lemma summary_counts r :
  PacketsSent (summary host fmt_2f fmt_loss r).1 = PacketsSent r
  /\ PacketsRecv (summary host fmt_2f fmt_loss r).1 = PacketsRecv r
  /\ MinRTT (summary host fmt_2f fmt_loss r).1 = MinRTT r
  /\ MaxRTT (summary host fmt_2f fmt_loss r).1 = MaxRTT r
  /\ TotalRTT (summary host fmt_2f fmt_loss r).1 = TotalRTT r.
Proof. unfold summary. by destruct (0 <? PacketsRecv r). Qed.


Lemma Hour_eq : Hour = 3600000000000.
Proof. reflexivity. Qed.

Lemma replied_rtt seq :
  replied seq -> (ping (worlds seq) seq timeout (clock seq)).1 = since (worlds seq).
Proof.
  intros Hr. cbv beta in Hr.
  pose proof (ping_outcome (worlds seq) seq timeout (clock seq)) as Ho.
  destruct (ping _ _ _ _) as [rtt [e|]]; simpl in *; done.
Qed.

Lemma pingLoop_rtt fuel i r :
  0 <= i -> i + Z.of_nat fuel = count -> count * Hour <= max_int64 ->
  (forall seq, 0 <= since (worlds seq) <= Hour) ->
  0 <= PacketsRecv r <= i ->
  0 <= MinRTT r <= Hour -> 0 <= MaxRTT r <= Hour ->
  0 <= TotalRTT r <= PacketsRecv r * Hour ->
  MinRTT r * PacketsRecv r <= TotalRTT r <= MaxRTT r * PacketsRecv r ->
  MinRTT (loop fuel i r).1 * PacketsRecv (loop fuel i r).1
    <= TotalRTT (loop fuel i r).1
    <= MaxRTT (loop fuel i r).1 * PacketsRecv (loop fuel i r).1
  /\ 0 <= PacketsRecv (loop fuel i r).1 /\ 0 <= TotalRTT (loop fuel i r).1
  /\ MinRTT (loop fuel i r).1 <= MinRTT r /\ MaxRTT r <= MaxRTT (loop fuel i r).1
  /\ (forall seq, i < seq <= count -> replied seq ->
      MinRTT (loop fuel i r).1 <= since (worlds seq) <= MaxRTT (loop fuel i r).1).
Proof.
  rewrite Hour_eq. unfold max_int64.
  revert i r. induction fuel as [|fuel IH];
    intros i r Hi Hfuel Hmax Hsince Hrecv Hmin Hmaxr Htot Hprod.
  { simpl. split_and!; try done; try lia. }
  cbn [pingLoop].
  replace (i <? count) with true by (symmetry; apply Z.ltb_lt; lia).
  assert (wrap64 (i + 1) = i + 1) as Hw
    by (apply PortScannerSpec.wrap64_small; unfold in_int64, min_int64, max_int64; lia).
  rewrite Hw. cbn [fst snd].
  set (o := ping (worlds (i + 1)) (i + 1) timeout (clock (i + 1))).
  pose proof (Hsince (i + 1)) as Hrtt.
  assert (o.2 = None -> o.1 = since (worlds (i + 1))) as Ho by apply replied_rtt.
  assert (PacketsRecv (tally o r)
          = (if decide (o.2 = None) then PacketsRecv r + 1 else PacketsRecv r)
          /\ TotalRTT (tally o r)
             = (if decide (o.2 = None) then TotalRTT r + o.1 else TotalRTT r)
          /\ MinRTT (tally o r)
             = (if decide (o.2 = None) then Z.min o.1 (MinRTT r) else MinRTT r)
          /\ MaxRTT (tally o r)
             = (if decide (o.2 = None) then Z.max o.1 (MaxRTT r) else MaxRTT r))
    as (Hr1 & Hr2 & Hr3 & Hr4).
  { unfold tally. destruct o.2 as [e|] eqn:Ho2; [done|]. simpl.
    rewrite !PortScannerSpec.wrap64_small
      by (unfold in_int64, min_int64, max_int64; specialize (Ho eq_refl); nia).
    split_and!; try done.
    - destruct (Z.ltb_spec o.1 (MinRTT r)); lia.
    - destruct (Z.ltb_spec (MaxRTT r) o.1); lia. }
  destruct (IH (i + 1) (tally o r)) as (Hp' & Hrc' & Htot' & Hmn' & Hmx' & Hall');
    try done; try lia.
  { rewrite Hr1. case_decide; lia. }
  { rewrite Hr3. case_decide as Hd; [specialize (Ho Hd)|]; lia. }
  { rewrite Hr4. case_decide as Hd; [specialize (Ho Hd)|]; lia. }
  { rewrite Hr1, Hr2. case_decide as Hd; [specialize (Ho Hd)|]; lia. }
  { rewrite Hr1, Hr2, Hr3, Hr4. case_decide as Hd; [specialize (Ho Hd)|]; nia. }
  split_and!; try lia.
  - rewrite Hr3 in Hmn'. case_decide; lia.
  - rewrite Hr4 in Hmx'. case_decide; lia.
  - intros seq Hseq Hrep. destruct (decide (seq = i + 1)) as [->|Hne].
    + rewrite Hr3 in Hmn'. rewrite Hr4 in Hmx'.
      fold o in Hrep. rewrite decide_True in Hmn', Hmx' by done.
      specialize (Ho Hrep). lia.
    + apply Hall'; [lia|done].
Qed.

(** When every reply arrives within an hour of its request and [count]
    is small enough for the total not to overflow, the statistics [main]
    ends with are consistent whenever a reply was received: the average
    lies between the minimum and the maximum, and the round-trip time of
    every ping that got its reply lies between them too. *)
Theorem ping_main_rtt euid resolved result trace :
  count * Hour <= max_int64 ->
  (forall seq, 0 <= since (worlds seq) <= Hour) ->
  main host count timeout interval worlds clock ip fmt_2f fmt_loss euid resolved
  = Finished result trace ->
  0 < PacketsRecv result ->
  MinRTT result <= AvgRTT result <= MaxRTT result
  /\ forall seq, seq ∈ pinged trace -> replied seq ->
       MinRTT result <= since (worlds seq) <= MaxRTT result.
Proof.
  intros Hmax Hsince. unfold main.
  destruct (decide (euid = 0)) as [->|Hne];
    [|by rewrite bool_decide_eq_true_2].
  rewrite bool_decide_eq_false_2 by (by intros ?).
  destruct resolved as [[]|]; [|done]. intros [= <- <-].
  set (r0 := mkPingResult host 0 0 Hour 0 0 0).
  destruct (summary_trace (loop (Z.to_nat count) 0 r0).1) as [Hs1 _].
  destruct (summary_counts (loop (Z.to_nat count) 0 r0).1)
    as (_ & Hs4 & Hs5 & Hs6 & Hs7).
  cbn [app]. rewrite !pinged_printed, pinged_app, Hs1, app_nil_r.
  rewrite Hs4, Hs5, Hs6. intros Hpos.
  destruct (decide (count <= 0)) as [Hle|Hgt].
  { exfalso. revert Hpos. replace (Z.to_nat count) with 0%nat by lia. simpl. lia. }
  assert (count <= max_int64) as Hmax'
    by (rewrite Hour_eq in Hmax; unfold max_int64 in *; lia).
  destruct (pingLoop_counts (Z.to_nat count) 0 r0) as (Hp & _); try done; try lia.
  destruct (pingLoop_rtt (Z.to_nat count) 0 r0)
    as (Hprod & Hrc & Htot & _ & _ & Hall);
    try done; try lia; try (simpl; rewrite ?Hour_eq; lia).
  split.
  - unfold summary. replace (0 <? PacketsRecv (loop (Z.to_nat count) 0 r0).1) with true
      by (symmetry; by apply Z.ltb_lt).
    simpl. rewrite Z.quot_div_nonneg by lia. split.
    + apply Z.div_le_lower_bound; lia.
    + apply Z.div_le_upper_bound; lia.
  - intros seq Hin Hrep. apply Hall; [|done]. rewrite Hp in Hin.
    apply list_elem_of_fmap in Hin as (k & -> & Hk). apply elem_of_seq in Hk. lia.
Qed.

End MainLoop.


Lemma ping_main_rtt_witness :
  exists result trace,
    main "8.8.8.8" 3 (2 * Second) Second flaky (fun _ => 0) "8.8.8.8" pretty
      (fun _ _ => "33.3") 0 (Ok ())
    = Finished result trace
    /\ MinRTT result <= AvgRTT result <= MaxRTT result.
Proof.
  eexists _, _. split; [vm_compute; reflexivity|].
  match goal with
  | |- MinRTT ?r <= _ <= _ =>
      refine (proj1 (ping_main_rtt "8.8.8.8" 3 (2 * Second) Second flaky (fun _ => 0)
                       "8.8.8.8" pretty (fun _ _ => "33.3") 0 (Ok ()) r _ _ _ _ _))
  end.
  - discriminate.
  - intros seq. unfold flaky. destruct (seq =? 2); split; discriminate.
  - vm_compute; reflexivity.
  - reflexivity.
Defined.

End PingExtra.

(** ** More on the store under its lock *)

Module ResultStoreExtra.
Import HealthChecker ResultStore ResultStoreSpec.

Lemma view_inv_step a s s' :
  store_inv s -> view_inv s -> step a s = Some s' -> view_inv s'.
Proof.
  intros Hinv [Hview Hsnap] Hstep. unfold view_inv.
  destruct a; step_inversion Hstep.
  - (* Lock *) done.
  - (* StoreBegin *)
    split; [|done]. intros j seen Hj. exfalso.
    by eapply (store_exclusion s i (Locked c) j seen).
  - (* StoreEnd *)
    split; [|done]. intros j seen Hj. exfalso.
    by eapply (store_exclusion s i (Storing c) j seen).
  - (* Unlock *) done.
  - (* RLock *)
    split; [|done]. intros j' seen Hj'.
    apply list_lookup_insert_Some in Hj' as [(_ & [= <-] & _)|[_ Hj']]; [done|eauto].
  - (* Lookup *)
    split; [|done]. intros j' seen' Hj'.
    apply list_lookup_insert_Some in Hj' as [(_ & [= <-] & _)|[_ Hj']]; [|eauto].
    rewrite length_app. simpl. rewrite Nat.add_1_r.
    erewrite take_S_r by done. rewrite map_app. simpl. f_equal. eauto.
  - (* RUnlock *)
    split.
    + intros j' seen' Hj'.
      apply list_lookup_insert_Some in Hj' as [(_ & ? & _)|[_ Hj']]; [done|eauto].
    + apply Forall_app. split; [done|]. apply Forall_singleton.
      apply lookup_ge_None in E1. pose proof (Hview j seen E) as Hseen.
      apply (f_equal length) in Hseen. rewrite length_map, length_take in Hseen. lia.
Qed.

(** A report is a view of one moment: as long as a reader is inside
    [printStatus], what it has looked up is what the store holds now for
    the first endpoints of the list, in order, whatever the writers have
    been trying to do meanwhile; and every report it has finished has one
    entry for each configured endpoint. *)
Theorem report_is_point_in_time eps nw nr sched s :
  run sched (init eps nw nr) = Some s ->
  endpoints s = eps
  /\ (forall j seen, readers s !! j = Some (Looping seen) ->
       seen = map (fun e => statuses s !! Name e) (take (length seen) eps))
  /\ Forall (fun snap => length snap = length eps) (snapshots s).
Proof.
  intros Hrun.
  assert (store_inv s /\ view_inv s /\ endpoints s = eps) as (_ & [Hv Hs] & He).
  { assert (store_inv (init eps nw nr) /\ view_inv (init eps nw nr)
            /\ endpoints (init eps nw nr) = eps) as Hinit.
    { split; [apply store_inv_init|]. split; [|done]. split; [|done].
      intros j seen Hj. simpl in Hj. apply lookup_replicate in Hj as [? _]. done. }
    revert Hrun Hinit. generalize (init eps nw nr).
    induction sched as [|a sched IH]; intros s0; simpl.
    - by intros [= <-].
    - destruct (step a s0) as [s1|] eqn:Hst; [|done]. intros Hrun (Hi & Hv & He).
      apply (IH s1 Hrun). split; [by eapply store_inv_step|].
      split; [by eapply view_inv_step|].
      rewrite <- He. clear -Hst. destruct a; step_inversion Hst; done. }
  rewrite He in Hv, Hs. done.
Qed.

Lemma report_is_point_in_time_witness :
  exists s,
    run schedule_rw (init [epA] 1 1) = Some s
    /\ Forall (fun snap => length snap = 1%nat) (snapshots s).
Proof.
  eexists. split; [vm_compute; reflexivity|].
  refine (proj2 (proj2 (report_is_point_in_time [epA] 1 1 schedule_rw _ _))).
  vm_compute; reflexivity.
Defined.

End ResultStoreExtra.

(** ** The TCP echo server *)

Module TcpEchoExtra.
Import TcpEcho.

Lemma length_line m : String.length (m +:+ nl) = S (String.length m).
Proof. induction m as [|a m IH]; simpl; [done|]. by rewrite IH. Qed.

Lemma substring_line m : String.substring 0 (String.length m) (m +:+ nl) = m.
Proof. induction m as [|a m IH]; simpl; [done|]. by rewrite IH. Qed.

Lemma chop_line m : chop (m +:+ nl) = Some m.
Proof. unfold chop. by rewrite length_line, substring_line. Qed.

Lemma serve_says clientAddr m turns :
  m <> "quit" ->
  serve clientAddr (says m :: turns)
  = (Wrote (echo m)
       :: Logged ("💬 [" +:+ clientAddr +:+ "] " +:+ m) :: (serve clientAddr turns).1,
     (serve clientAddr turns).2).
Proof.
  intros Hm. unfold says. cbn [serve ctx_done input]. rewrite chop_line.
  rewrite bool_decide_false by done. done.
Qed.

Lemma serve_quit clientAddr turns :
  serve clientAddr (says "quit" :: turns)
  = ([Wrote ("Goodbye!" +:+ nl); Logged ("📤 Client quit: " +:+ clientAddr)], Returned).
Proof. unfold says. cbn [serve ctx_done input]. by rewrite chop_line. Qed.

(** The lines before the end of a session are answered one by one. *)
Lemma serve_lines clientAddr msgs turns :
  Forall (fun m => m <> "quit") msgs ->
  written (serve clientAddr ((says <$> msgs) ++ turns)).1
  = (echo <$> msgs) ++ written (serve clientAddr turns).1
  /\ (serve clientAddr ((says <$> msgs) ++ turns)).2 = (serve clientAddr turns).2.
Proof.
  induction 1 as [|m msgs Hm _ (IHw & IHs)]; [done|].
  rewrite fmap_cons, <- app_comm_cons, serve_says by done.
  cbn [fst snd]. split; [|done].
  unfold written in *. cbn. by rewrite IHw.
Qed.

Lemma written_app tr1 tr2 : written (tr1 ++ tr2) = written tr1 ++ written tr2.
Proof. apply omap_app. Qed.

Lemma written_welcome : written (map Wrote welcome) = welcome.
Proof. done. Qed.

Ltac not_closed H :=
  repeat (apply elem_of_cons in H as [H|H]; [discriminate H|]);
  try (by apply elem_of_nil in H).

Lemma serve_not_closed clientAddr turns : Closed ∉ (serve clientAddr turns).1.
Proof.
  induction turns as [|t turns IH]; cbn [serve]; [by apply not_elem_of_nil|].
  destruct (ctx_done t); [intros Hin; not_closed Hin|].
  destruct (input t) as [message|? ?]; [|intros Hin; not_closed Hin].
  destruct (chop message) as [m|]; [|by apply not_elem_of_nil].
  case_bool_decide; cbn [fst]; intros Hin; not_closed Hin. done.
Qed.

Lemma welcome_not_closed clientAddr tr :
  Closed ∉ tr ->
  Closed ∉ Logged ("📥 Client connected: " +:+ clientAddr) :: map Wrote welcome ++ tr.
Proof.
  intros Htr Hin. apply elem_of_cons in Hin as [Hin|Hin]; [discriminate Hin|].
  apply elem_of_app in Hin as [Hin|Hin]; [|done].
  cbn in Hin. not_closed Hin.
Qed.

(** X20. While the client sends lines other than the quit command and the
    server is not shutting down, [handleConnection] writes, after the
    welcome, exactly one answer per line, in the order of the lines: the
    line itself between the prefix and a line feed. It then waits for the
    next line with the connection open. Only the line feed is removed, so a
    line ending in a carriage return, the quit command included, is
    answered like any other. *)
Theorem handleConnection_echoes clientAddr msgs :
  Forall (fun m => m <> "quit") msgs ->
  written (handleConnection clientAddr (says <$> msgs)).1 = welcome ++ (echo <$> msgs)
  /\ (handleConnection clientAddr (says <$> msgs)).2 = Reading
  /\ Closed ∉ (handleConnection clientAddr (says <$> msgs)).1.
Proof.
  intros Hmsgs.
  destruct (serve_lines clientAddr msgs [] Hmsgs) as (Hw & Hs).
  rewrite app_nil_r in Hw, Hs. cbn in Hw, Hs. rewrite app_nil_r in Hw.
  unfold handleConnection. cbn [fst snd]. rewrite Hs. split_and!; [|done|].
  - change (written (?e :: ?l)) with (written l).
    by rewrite !written_app, written_welcome, Hw, app_nil_r.
  - rewrite app_nil_r. apply welcome_not_closed, serve_not_closed.
Qed.

Lemma handleConnection_echoes_witness :
  written (handleConnection "10.0.0.7:5000"
             (says <$> ["hello"; "quit" +:+ cr; "QUIT"])).1
  = welcome ++ [echo "hello"; echo ("quit" +:+ cr); echo "QUIT"].
Proof.
  refine (proj1 (handleConnection_echoes "10.0.0.7:5000"
                   ["hello"; "quit" +:+ cr; "QUIT"] _)).
  repeat constructor; discriminate.
Defined.

(** X21. The line that is exactly the quit command ends the session: the
    lines before it are answered, the farewell is the last thing written,
    [handleConnection] returns and the connection is closed. What the
    client sends after it is never read. *)
Theorem handleConnection_quit clientAddr msgs later :
  Forall (fun m => m <> "quit") msgs ->
  written (handleConnection clientAddr ((says <$> msgs) ++ says "quit" :: later)).1
  = welcome ++ (echo <$> msgs) ++ ["Goodbye!" +:+ nl]
  /\ (handleConnection clientAddr ((says <$> msgs) ++ says "quit" :: later)).2
     = Returned
  /\ last (handleConnection clientAddr ((says <$> msgs) ++ says "quit" :: later)).1
     = Some Closed.
Proof.
  intros Hmsgs.
  destruct (serve_lines clientAddr msgs (says "quit" :: later) Hmsgs) as (Hw & Hs).
  rewrite serve_quit in Hw, Hs. cbn [fst snd] in Hw, Hs.
  unfold handleConnection. cbn [fst snd]. rewrite Hs. split_and!; [|done|].
  - change (written (?e :: ?l)) with (written l).
    rewrite !written_app, written_welcome, Hw.
    change (written [Closed]) with (@nil string). by rewrite app_nil_r.
  - by rewrite app_comm_cons, !app_assoc, last_snoc.
Qed.

Lemma handleConnection_quit_witness :
  written (handleConnection "10.0.0.7:5000"
             ((says <$> ["hello"]) ++ says "quit" :: [says "more"])).1
  = welcome ++ [echo "hello"; "Goodbye!" +:+ nl].
Proof.
  refine (proj1 (handleConnection_quit "10.0.0.7:5000" ["hello"] [says "more"] _)).
  repeat constructor; discriminate.
Defined.

(** X22. A shutdown of the server is noticed between two lines: once the
    context is done when the loop comes round, the lines read so far have
    been answered, the shutdown notice is the last thing written, the
    handler returns and closes the connection, and the input waiting on
    the connection is not read. *)
Theorem handleConnection_shutdown clientAddr msgs pending later :
  Forall (fun m => m <> "quit") msgs ->
  written (handleConnection clientAddr
             ((says <$> msgs) ++ mkTurn true pending :: later)).1
  = welcome ++ (echo <$> msgs) ++ ["Server shutting down. Goodbye!" +:+ nl]
  /\ (handleConnection clientAddr
        ((says <$> msgs) ++ mkTurn true pending :: later)).2 = Returned
  /\ last (handleConnection clientAddr
             ((says <$> msgs) ++ mkTurn true pending :: later)).1 = Some Closed.
Proof.
  intros Hmsgs.
  destruct (serve_lines clientAddr msgs (mkTurn true pending :: later) Hmsgs)
    as (Hw & Hs).
  cbn [serve ctx_done fst snd] in Hw, Hs.
  unfold handleConnection. cbn [fst snd]. rewrite Hs. split_and!; [|done|].
  - change (written (?e :: ?l)) with (written l).
    rewrite !written_app, written_welcome, Hw.
    change (written [Closed]) with (@nil string). by rewrite app_nil_r.
  - by rewrite app_comm_cons, !app_assoc, last_snoc.
Qed.

Lemma handleConnection_shutdown_witness :
  written (handleConnection "10.0.0.7:5000"
             ((says <$> ["hello"]) ++ mkTurn true (Line ("lost" +:+ nl)) :: [])).1
  = welcome ++ [echo "hello"; "Server shutting down. Goodbye!" +:+ nl].
Proof.
  refine (proj1 (handleConnection_shutdown "10.0.0.7:5000" ["hello"]
                   (Line ("lost" +:+ nl)) [] _)).
  repeat constructor; discriminate.
Defined.

(** X23. Whatever the client and the server's context do,
    [handleConnection] closes the connection exactly when it is left, as
    its last action and once: while it waits for a line the connection is
    open, and on every way out (quit, read error, shutdown, panic) the
    close follows everything written. *)
Theorem handleConnection_closes_once clientAddr turns :
  ((handleConnection clientAddr turns).2 = Reading ->
   Closed ∉ (handleConnection clientAddr turns).1)
  /\ ((handleConnection clientAddr turns).2 <> Reading ->
      exists tr, (handleConnection clientAddr turns).1 = tr ++ [Closed]
                 /\ Closed ∉ tr).
Proof.
  pose proof (welcome_not_closed clientAddr _ (serve_not_closed clientAddr turns))
    as Hopen.
  unfold handleConnection. cbn [fst snd].
  destruct (serve clientAddr turns).2; (split; [intros ?|intros ?]); try done.
  - by rewrite app_nil_r.
  - eexists. split; [|exact Hopen]. by rewrite app_comm_cons, !app_assoc.
  - eexists. split; [|exact Hopen]. by rewrite app_comm_cons, !app_assoc.
Qed.

End TcpEchoExtra.

(** ** The UDP echo server *)

Module UdpEchoExtra.
Import UdpEcho.

Lemma sent_app tr1 tr2 : sent (tr1 ++ tr2) = sent tr1 ++ sent tr2.
Proof. apply omap_app. Qed.

Lemma logged_app format tr1 tr2 :
  logged format (tr1 ++ tr2) = logged format tr1 ++ logged format tr2.
Proof. apply omap_app. Qed.

Lemma receive_sent stats arrivals :
  sent (receive stats arrivals).1.1
  = (fun d => ("Echo: " +:+ d.1, d.2)) <$> received arrivals.
Proof.
  revert stats. induction arrivals as [|a arrivals IH]; intros stats; [done|].
  destruct a as [err [|]|data clientAddr write_err]; cbn [receive received fst snd].
  - done.
  - change (sent (?e :: ?l)) with (sent l). apply IH.
  - rewrite fmap_cons. cbn [fst snd].
    change (sent (Logged ?f ?a :: Sent ?d ?t :: ?l)) with ((d, t) :: sent l).
    f_equal. rewrite sent_app.
    replace (sent match write_err with
                  | Some err => [Logged "Write error: %v" [err]]
                  | None => []
                  end) with (@nil (string * string)) by (by destruct write_err).
    apply IH.
Qed.

Lemma receive_logged_received stats arrivals :
  logged "📨 Received from %s: %s" (receive stats arrivals).1.1
  = (fun d => [d.2; d.1]) <$> received arrivals.
Proof.
  revert stats. induction arrivals as [|a arrivals IH]; intros stats; [done|].
  destruct a as [err [|]|data clientAddr write_err]; cbn [receive received fst snd].
  - done.
  - change (logged ?f (Logged "Read error: %v" ?a :: ?l)) with (logged f l). apply IH.
  - rewrite fmap_cons. cbn [fst snd].
    change (logged ?f (Logged ?g ?a :: Sent ?d ?t :: ?l)) with (a :: logged f l).
    f_equal. rewrite logged_app.
    replace (logged _ match write_err with
                      | Some err => [Logged "Write error: %v" [err]]
                      | None => []
                      end) with (@nil (list string)) by (by destruct write_err).
    apply IH.
Qed.

Lemma receive_logged_read_errors stats arrivals :
  logged "Read error: %v" (receive stats arrivals).1.1
  = (fun err => [err]) <$> read_errors arrivals.
Proof.
  revert stats. induction arrivals as [|a arrivals IH]; intros stats; [done|].
  destruct a as [err [|]|data clientAddr write_err];
    cbn [receive read_errors fst snd].
  - done.
  - rewrite fmap_cons.
    change (logged ?f (Logged ?g ?a :: ?l)) with (a :: logged f l).
    f_equal. apply IH.
  - change (logged ?f (Logged "📨 Received from %s: %s" ?a :: Sent ?d ?t :: ?l))
      with (logged f l).
    rewrite logged_app.
    replace (logged _ match write_err with
                      | Some err => [Logged "Write error: %v" [err]]
                      | None => []
                      end) with (@nil (list string)) by (by destruct write_err).
    apply IH.
Qed.

Lemma receive_logged_write_errors stats arrivals :
  logged "Write error: %v" (receive stats arrivals).1.1
  = (fun err => [err]) <$> write_errors arrivals.
Proof.
  revert stats. induction arrivals as [|a arrivals IH]; intros stats; [done|].
  destruct a as [err [|]|data clientAddr write_err];
    cbn [receive write_errors fst snd].
  - done.
  - change (logged ?f (Logged "Read error: %v" ?a :: ?l)) with (logged f l). apply IH.
  - change (logged ?f (Logged "📨 Received from %s: %s" ?a :: Sent ?d ?t :: ?l))
      with (logged f l).
    rewrite logged_app. destruct write_err as [err|].
    + rewrite fmap_cons.
      change (logged ?f [Logged ?g ?a]) with [a]. simpl. f_equal. apply IH.
    + apply IH.
Qed.

Lemma receive_length stats arrivals :
  length (receive stats arrivals).1.1
  = (2 * length (received arrivals) + length (read_errors arrivals)
     + length (write_errors arrivals))%nat.
Proof.
  revert stats. induction arrivals as [|a arrivals IH]; intros stats; [done|].
  destruct a as [err [|]|data clientAddr write_err];
    cbn [receive received read_errors write_errors fst snd length].
  - done.
  - rewrite IH. lia.
  - rewrite length_app, IH. destruct write_err; cbn [length]; lia.
Qed.

Lemma receive_status stats arrivals :
  (receive stats arrivals).2 = if interrupted arrivals then Returned else Receiving.
Proof.
  revert stats. induction arrivals as [|a arrivals IH]; intros stats; [done|].
  destruct a as [err [|]|data clientAddr write_err];
    cbn [receive interrupted existsb orb fst snd]; [done|apply IH..].
Qed.

Lemma receive_interrupted stats arrivals later :
  interrupted arrivals = true ->
  receive stats (arrivals ++ later) = receive stats arrivals.
Proof.
  revert stats. induction arrivals as [|a arrivals IH]; intros stats; [done|].
  destruct a as [err [|]|data clientAddr write_err];
    cbn [app receive interrupted existsb orb]; [done|..];
    intros Hi; by rewrite IH.
Qed.

(** X24. The receive loop answers every datagram it reads, once, in the
    order of arrival and to the address it came from, with the payload
    behind the prefix, and logs each of them. A failed read without a
    signal and a failed write are each logged, with their error, and do
    not end the loop, so they neither drop nor repeat an answer. Nothing
    else is sent or logged. The loop returns exactly when a read fails
    with a signal waiting, and what arrives after that has no effect. *)
Theorem receive_answers_each_datagram stats arrivals :
  sent (receive stats arrivals).1.1
  = (fun d => ("Echo: " +:+ d.1, d.2)) <$> received arrivals
  /\ logged "📨 Received from %s: %s" (receive stats arrivals).1.1
     = (fun d => [d.2; d.1]) <$> received arrivals
  /\ logged "Read error: %v" (receive stats arrivals).1.1
     = (fun err => [err]) <$> read_errors arrivals
  /\ logged "Write error: %v" (receive stats arrivals).1.1
     = (fun err => [err]) <$> write_errors arrivals
  /\ length (receive stats arrivals).1.1
     = (2 * length (received arrivals) + length (read_errors arrivals)
        + length (write_errors arrivals))%nat
  /\ ((receive stats arrivals).2 = Returned
      <-> exists err, ReadFail err true ∈ arrivals)
  /\ ((receive stats arrivals).2 = Receiving
      <-> forall err, ReadFail err true ∉ arrivals)
  /\ (forall later,
        (receive stats arrivals).2 = Returned ->
        receive stats (arrivals ++ later) = receive stats arrivals).
Proof.
  assert (interrupted arrivals = true <-> exists err, ReadFail err true ∈ arrivals)
    as Hint.
  { unfold interrupted. rewrite existsb_exists. split.
    - intros ([err sig|] & Hin & Hsig); [|done]. simpl in Hsig. subst sig.
      exists err. by apply list_elem_of_In.
    - intros (err & Hin). exists (ReadFail err true).
      split; [by apply list_elem_of_In|done]. }
  split_and!.
  - apply receive_sent.
  - apply receive_logged_received.
  - apply receive_logged_read_errors.
  - apply receive_logged_write_errors.
  - apply receive_length.
  - rewrite receive_status, <- Hint. by destruct (interrupted arrivals).
  - rewrite receive_status. split.
    + intros Hr err Hin. assert (interrupted arrivals = true) as Hi
        by (apply Hint; eauto).
      by rewrite Hi in Hr.
    + intros Hno. destruct (interrupted arrivals) eqn:Hi; [|done].
      destruct (proj1 Hint eq_refl) as [err Hin]. by destruct (Hno err).
  - intros later. rewrite receive_status.
    destruct (interrupted arrivals) eqn:Hi; [|done]. intros _.
    by apply receive_interrupted.
Qed.

(** The counters from any starting value, as long as they fit. *)
Lemma receive_stats stats arrivals :
  0 <= PacketsSent stats <= PacketsReceived stats ->
  0 <= BytesReceived stats ->
  PacketsReceived stats + Z.of_nat (length (received arrivals)) <= max_int64 ->
  BytesReceived stats + bytes (received arrivals) <= max_int64 ->
  PacketsReceived (receive stats arrivals).1.2
  = PacketsReceived stats + Z.of_nat (length (received arrivals))
  /\ BytesReceived (receive stats arrivals).1.2
     = BytesReceived stats + bytes (received arrivals)
  /\ PacketsSent (receive stats arrivals).1.2
     = PacketsSent stats + Z.of_nat (length (answered arrivals))
  /\ (length (answered arrivals) <= length (received arrivals))%nat.
Proof.
  revert stats. induction arrivals as [|a arrivals IH]; intros stats Hs Hb Hp Hn.
  { cbn. split_and!; lia. }
  destruct a as [err [|]|data clientAddr write_err]; cbn [receive received answered].
  - cbn. split_and!; lia.
  - cbn [fst snd]. by apply IH.
  - cbn [received length bytes foldr fst] in Hp, Hn |- *.
    fold (bytes (received arrivals)) in Hn |- *.
    assert (0 <= bytes (received arrivals)) as Hnn.
    { clear. induction (received arrivals) as [|d l IHl]; cbn; [done|].
      fold (bytes l). lia. }
    cbn [fst snd].
    assert (0 <= Z.of_nat (String.length data)) as Hn0 by lia.
    revert Hn0 Hn. generalize (Z.of_nat (String.length data)). intros n Hn0 Hn.
    rewrite (PortScannerSpec.wrap64_small (PacketsReceived stats + 1))
      by (unfold in_int64, min_int64, max_int64 in *; lia).
    rewrite (PortScannerSpec.wrap64_small (BytesReceived stats + n))
      by (unfold in_int64, min_int64, max_int64 in *; lia).
    destruct write_err as [err|]; cbn [PacketsReceived BytesReceived PacketsSent].
    + edestruct (IH (mkStats (PacketsReceived stats + 1) (BytesReceived stats + n)
                       (PacketsSent stats))) as (H1 & H2 & H3 & H4);
        cbn [PacketsReceived BytesReceived PacketsSent]; try lia.
      rewrite H1, H2, H3. cbn [PacketsReceived BytesReceived PacketsSent].
      split_and!; lia.
    + rewrite (PortScannerSpec.wrap64_small (PacketsSent stats + 1))
        by (unfold in_int64, min_int64, max_int64 in *; lia).
      edestruct (IH (mkStats (PacketsReceived stats + 1) (BytesReceived stats + n)
                       (PacketsSent stats + 1))) as (H1 & H2 & H3 & H4);
        cbn [PacketsReceived BytesReceived PacketsSent]; try lia.
      rewrite H1, H2, H3. cbn [PacketsReceived BytesReceived PacketsSent length].
      split_and!; lia.
Qed.

(** X25. As long as the number of datagrams and of their bytes fit a
    64-bit integer, the statistics the loop keeps are exact: the packets
    received are the datagrams read (failed reads are not counted), the
    bytes received are the sum of their lengths, and the packets sent are
    the answers written without an error, so never more than the packets
    received. *)
Theorem receive_stats_exact arrivals :
  Z.of_nat (length (received arrivals)) <= max_int64 ->
  bytes (received arrivals) <= max_int64 ->
  PacketsReceived (receive (mkStats 0 0 0) arrivals).1.2
  = Z.of_nat (length (received arrivals))
  /\ BytesReceived (receive (mkStats 0 0 0) arrivals).1.2 = bytes (received arrivals)
  /\ PacketsSent (receive (mkStats 0 0 0) arrivals).1.2
     = Z.of_nat (length (answered arrivals))
  /\ PacketsSent (receive (mkStats 0 0 0) arrivals).1.2
     <= PacketsReceived (receive (mkStats 0 0 0) arrivals).1.2.
Proof.
  intros Hp Hn.
  destruct (receive_stats (mkStats 0 0 0) arrivals) as (H1 & H2 & H3 & H4);
    cbn [PacketsReceived BytesReceived PacketsSent]; try lia.
  cbn [PacketsReceived BytesReceived PacketsSent] in H1, H2, H3.
  rewrite H1, H2, H3. split_and!; lia.
Qed.

Lemma receive_stats_exact_witness :
  PacketsSent (receive (mkStats 0 0 0)
                 [ Datagram "hello" "10.0.0.7:4000" None;
                   ReadFail "timeout" false;
                   Datagram "again" "10.0.0.8:4000" (Some "unreachable") ]).1.2
  <= PacketsReceived (receive (mkStats 0 0 0)
                        [ Datagram "hello" "10.0.0.7:4000" None;
                          ReadFail "timeout" false;
                          Datagram "again" "10.0.0.8:4000" (Some "unreachable") ]).1.2.
Proof.
  refine (proj2 (proj2 (proj2 (receive_stats_exact _ _ _)))); vm_compute; discriminate.
Defined.

End UdpEchoExtra.
